(** * Smart Data Storage (device_cloud/sds.py): a shallow embedding

    The Python class [SmartDataStorage] keeps four SQLite tables and offers
    insertion with a retention policy, change-detection smoothing and a
    publish-and-acknowledge loop.  This development embeds the class as pure
    functions over an explicit [world] (the database, the journal of backend
    commands, the schedule of backend faults and the clock), in a small
    state-and-exception monad, and proves or refutes the properties the
    specification states about it.

    Conventions of the embedding:
    - a Python float or int bound to a REAL column is an exact rational
      ([Qc]); rounding of binary floating point is not modelled;
    - a cursor is the list of rows it would yield, in ascending [idx] order;
    - one [begin; statement; commit] transaction is one backend command: it
      either takes effect or fails as a whole ([conn.Error], rolled back);
    - the logger is fire-and-forget and leaves no trace in the model. *)

From Stdlib Require Import QArith Qcanon.
From stdpp Require Import base numbers strings list gmap sorting.

Local Open Scope string_scope.
Local Open Scope Z_scope.
Local Open Scope list_scope.

(** ** Values, rows and tables *)

(** A value as SQLite stores it and as the sqlite3 driver hands it back:
    NULL/None, an integer, a real, or text. *)
Inductive sqlval :=
  | SNull
  | SInt (z : Z)
  | SReal (q : Qc)
  | SText (s : string).

#[global] Instance sqlval_eq_dec : EqDecision sqlval.
Proof. solve_decision. Defined.

(** A row: the INTEGER PRIMARY KEY [idx] followed by the other columns, in
    schema order.  [row_get r i] is the tuple access [r[i]]. *)
Record row := Row { idx : Z; cols : list sqlval }.

#[global] Instance row_eq_dec : EqDecision row.
Proof. solve_decision. Defined.

Definition row_get (r : row) (i : nat) : option sqlval :=
  match i with
  | O => Some (SInt (idx r))
  | S j => cols r !! j
  end.

(** A table: its column names (what [pragma table_info] lists), its rows in
    ascending [idx] order, and the AUTOINCREMENT high-water mark. *)
Record table := Table { t_cols : list string; t_rows : list row; t_seq : Z }.

(** ** Class constants *)

Definition TELEMETRY := "telemetry".
Definition LOCATION := "location".
Definition ATTRIBUTE := "attribute".
Definition ALARM := "alarm".

Definition STATE_SENT := "sent".
Definition STATE_UNSENT := "unsent".
Definition STATE_REMOVE := "remove".
Definition STATE_RETAIN := "retain".
Definition STATE_PUBLISHED := "published".
Definition STATE_IGNORE := "ignore".

Definition TELEMETRY_VALUE := "value".
Definition LOCATION_LATITUDE := "latitude".
Definition LOCATION_LONGITUDE := "longitude".
Definition LOCATION_HEADING := "heading".
Definition LOCATION_ALTITUDE := "altitude".
Definition LOCATION_SPEED := "speed".
Definition LOCATION_ACCURACY := "accuracy".

Definition STORAGE_MAX_DAYS := "max_days".
Definition STORAGE_LIMITED := "limited".

Definition STORAGE_LIMITED_MAX := 1000000.
Definition STORAGE_LIMITED_NUM_TO_AGE := 20.

Definition STORAGE_AGE_OLDEST := 1.
Definition STORAGE_KEEP_OLDEST := 2.

(** Modelled from the spec: the status constants of
    [device_cloud._core.constants] (re-exported by the [device_cloud]
    package), a module that is not among the sources.  The engine only
    compares them for equality; [STATUS_OTHER] stands for any further code an
    upstream sender may answer with. *)
Inductive status :=
  | STATUS_SUCCESS
  | STATUS_FAILURE
  | STATUS_FULL
  | STATUS_STATUS_FULL
  | STATUS_OTHER (code : Z).

#[global] Instance status_eq_dec : EqDecision status.
Proof. solve_decision. Defined.

(** The instance attributes set by [__init__] and tuned by the application. *)
Record sds := Sds {
  retention_policy : string;
  retention_drop_mode : Z;
  max_days_to_retain : Z;
  retain_max_entries : Z;
  num_to_age : Z;
  table_list : list string;
  field_list : list string
}.

Definition init : sds :=
  {| retention_policy := STORAGE_LIMITED;
     retention_drop_mode := STORAGE_AGE_OLDEST;
     max_days_to_retain := 31;
     retain_max_entries := STORAGE_LIMITED_MAX;
     num_to_age := STORAGE_LIMITED_NUM_TO_AGE;
     table_list := [TELEMETRY; LOCATION; ATTRIBUTE; ALARM];
     field_list := [TELEMETRY_VALUE; LOCATION_LATITUDE; LOCATION_LONGITUDE;
                    LOCATION_HEADING; LOCATION_ALTITUDE; LOCATION_SPEED;
                    LOCATION_ACCURACY] |}.

(** The four schemas of the CREATE TABLE statements of [__init__]. *)
Definition telemetry_cols : list string :=
  ["idx"; "data_type"; "name"; "value"; "msg"; "ts"; "desc"; "status"].
Definition location_cols : list string :=
  ["idx"; "data_type"; "name"; "latitude"; "longitude"; "heading";
   "altitude"; "speed"; "accuracy"; "fix_type"; "msg"; "ts"; "status"].
Definition alarm_cols : list string :=
  ["idx"; "data_type"; "name"; "alarm_state"; "msg"; "repub"; "ts";
   "corr_id"; "lat"; "lng"; "desc"; "status"].
Definition attribute_cols : list string :=
  ["idx"; "data_type"; "name"; "corr_id"; "desc"; "repub"; "ts"; "status"].

Definition empty_table (cs : list string) : table :=
  {| t_cols := cs; t_rows := []; t_seq := 0 |}.

Definition fresh_tables : gmap string table :=
  <[TELEMETRY := empty_table telemetry_cols]>
  (<[LOCATION := empty_table location_cols]>
  (<[ALARM := empty_table alarm_cols]>
  (<[ATTRIBUTE := empty_table attribute_cols]> ∅))).

(** ** The backend *)

(** The SQL commands the class sends.  [CDeleteOldest t n] is
    [DELETE FROM t WHERE idx IN (SELECT idx FROM t ORDER BY idx ASC LIMIT n)];
    [CDeleteOlder t d] is the same with
    [WHERE ts < datetime('now', '-d days')] in place of the limit. *)
Inductive command :=
  | CInsert (t : string) (values : list sqlval)
  | CCount (t : string)
  | CSelect (t : string)
  | CSelectStatus (t : string) (state : string)
  | CUpdateStatus (t : string) (state : string) (i : sqlval)
  | CDeleteOldest (t : string) (limit : Z)
  | CDeleteOlder (t : string) (days : Z)
  | CTableInfo (t : string).

Inductive reply :=
  | RDone
  | RCount (n : Z)
  | RRows (rs : list row)
  | RInfo (names : list string).

(** Everything outside the Python object: the database file, the journal of
    the commands sent so far, which commands the backend will fail (by their
    position in the journal), the clock read by [datetime.utcnow()], and
    SQLite's [datetime('now', '-d days')]. *)
Record world := World {
  tables : gmap string table;
  journal : list command;
  fault : nat → bool;
  utcnow : string;
  sql_datetime : Z → string
}.

Definition set_tables (w : world) (ts : gmap string table) : world :=
  {| tables := ts; journal := journal w; fault := fault w;
     utcnow := utcnow w; sql_datetime := sql_datetime w |}.

Definition log_command (c : command) (w : world) : world :=
  {| tables := tables w; journal := journal w ++ [c]; fault := fault w;
     utcnow := utcnow w; sql_datetime := sql_datetime w |}.

Definition set_rows (tb : table) (rs : list row) : table :=
  {| t_cols := t_cols tb; t_rows := rs; t_seq := t_seq tb |}.

(** Position of a column in a schema. *)
Fixpoint col_index (n : string) (cs : list string) : option nat :=
  match cs with
  | [] => None
  | c :: cs' => if decide (c = n) then Some O else S <$> col_index n cs'
  end.

(** [WHERE status = s]: text equality; a NULL status never matches. *)
Definition has_status (tb : table) (s : string) (r : row) : bool :=
  match col_index "status" (t_cols tb) with
  | Some i => bool_decide (row_get r i = Some (SText s))
  | None => false
  end.

(** [SET status = s] on one row. *)
Definition set_status (tb : table) (s : string) (r : row) : row :=
  match col_index "status" (t_cols tb) with
  | Some (S j) => {| idx := idx r; cols := <[j := SText s]> (cols r) |}
  | _ => r
  end.

(** [WHERE idx = i] for an integer primary key. *)
Definition idx_is (i : sqlval) (r : row) : bool :=
  match i with
  | SInt z => bool_decide (idx r = z)
  | SReal q => bool_decide (Qc_of_Z (idx r) = q)
  | _ => false
  end.

(** [SELECT idx FROM t ORDER BY idx ASC LIMIT n]; a negative limit is no
    limit in SQLite. *)
Definition oldest (n : Z) (rs : list row) : list Z :=
  let sorted := merge_sort Z.le (idx <$> rs) in
  if decide (n < 0)%Z then sorted else take (Z.to_nat n) sorted.

(** [ts < datetime(...)] on the text of the [ts] column. *)
Definition ts_before (tb : table) (cut : string) (r : row) : bool :=
  match col_index "ts" (t_cols tb) with
  | Some i =>
      match row_get r i with
      | Some (SText s) => String.ltb s cut
      | _ => false
      end
  | None => false
  end.

(** What a command does to an existing table, and what it answers. *)
Definition run (c : command) (w : world) (tb : table) : table * reply :=
  match c with
  | CInsert _ values =>
      let i := t_seq tb + 1 in
      ({| t_cols := t_cols tb;
          t_rows := t_rows tb ++ [{| idx := i; cols := values |}];
          t_seq := i |}, RDone)
  | CCount _ => (tb, RCount (Z.of_nat (length (t_rows tb))))
  | CSelect _ => (tb, RRows (t_rows tb))
  | CSelectStatus _ s => (tb, RRows (filter (λ r, has_status tb s r = true) (t_rows tb)))
  | CUpdateStatus _ s i =>
      (set_rows tb ((λ r, if idx_is i r then set_status tb s r else r) <$> t_rows tb), RDone)
  | CDeleteOldest _ n =>
      let gone := oldest n (t_rows tb) in
      (set_rows tb (filter (λ r, idx r ∉ gone) (t_rows tb)), RDone)
  | CDeleteOlder _ d =>
      let cut := sql_datetime w d in
      (set_rows tb (filter (λ r, ts_before tb cut r = false) (t_rows tb)), RDone)
  | CTableInfo _ => (tb, RInfo (t_cols tb))
  end.

Definition target (c : command) : string :=
  match c with
  | CInsert t _ | CCount t | CSelect t | CSelectStatus t _
  | CUpdateStatus t _ _ | CDeleteOldest t _ | CDeleteOlder t _
  | CTableInfo t => t
  end.

(** Send one command.  [None] is a [conn.Error]: the scheduled fault, or a
    table that does not exist; the database is then left as it was.
    [pragma table_info] of a missing table is not an error, it lists no
    column. *)
Definition execute (c : command) (w : world) : option reply * world :=
  let w1 := log_command c w in
  if fault w (length (journal w)) then (None, w1)
  else match tables w !! target c with
       | Some tb =>
           let '(tb', r) := run c w tb in
           (Some r, set_tables w1 (<[target c := tb']> (tables w)))
       | None =>
           match c with
           | CTableInfo _ => (Some (RInfo []), w1)
           | _ => (None, w1)
           end
       end.

(** ** Python values and exceptions *)

Inductive exn := UnboundLocalError | KeyError | TypeError | IndexError.

Inductive outcome (A : Type) :=
  | Ret (a : A)
  | Raise (e : exn).
Arguments Ret {A} a.
Arguments Raise {A} e.

Definition obind {A B} (m : outcome A) (k : A → outcome B) : outcome B :=
  match m with
  | Ret a => k a
  | Raise e => Raise e
  end.

Notation "x <~ m ;; k" := (obind m (λ x, k))
  (at level 100, m at next level, right associativity).

(** Truth value of an object in [if x:] / [if not x:]. *)
Definition truthy (v : sqlval) : bool :=
  match v with
  | SNull => false
  | SInt z => negb (bool_decide (z = 0))
  | SReal q => negb (bool_decide (q = Q2Qc 0))
  | SText s => negb (bool_decide (s = ""))
  end.

(** The number a value denotes, if it is one. *)
Definition num (v : sqlval) : option Qc :=
  match v with
  | SInt z => Some (Qc_of_Z z)
  | SReal q => Some q
  | _ => None
  end.

(** [a == b]: numbers compare by value, text with text, None with None;
    objects of different kinds are unequal. *)
Definition py_eq (a b : sqlval) : bool :=
  match num a, num b with
  | Some x, Some y => bool_decide (x = y)
  | None, None => bool_decide (a = b)
  | _, _ => false
  end.

(** [a < b] and [a <= b] (Python 3): defined between two numbers and between
    two strings, a TypeError otherwise. *)
Definition py_lt (a b : sqlval) : outcome bool :=
  match num a, num b with
  | Some x, Some y => Ret (bool_decide (x < y)%Qc)
  | _, _ =>
      match a, b with
      | SText s, SText t => Ret (String.ltb s t)
      | _, _ => Raise TypeError
      end
  end.

Definition py_le (a b : sqlval) : outcome bool :=
  match num a, num b with
  | Some x, Some y => Ret (bool_decide (x ≤ y)%Qc)
  | _, _ =>
      match a, b with
      | SText s, SText t => Ret (String.leb s t)
      | _, _ => Raise TypeError
      end
  end.

Definition py_gt (a b : sqlval) : outcome bool := py_lt b a.
Definition py_ge (a b : sqlval) : outcome bool := py_le b a.

(** [a + d] and [a - d] for a number [d]: a TypeError unless [a] is a
    number too. *)
Definition py_add (a : sqlval) (d : Qc) : outcome sqlval :=
  match num a with
  | Some x => Ret (SReal (x + d)%Qc)
  | None => Raise TypeError
  end.

Definition py_sub (a : sqlval) (d : Qc) : outcome sqlval :=
  match num a with
  | Some x => Ret (SReal (x - d)%Qc)
  | None => Raise TypeError
  end.

(** [r[i]]: an IndexError past the end of the tuple. *)
Definition item (r : row) (i : nat) : outcome sqlval :=
  match row_get r i with
  | Some v => Ret v
  | None => Raise IndexError
  end.

(** ** The state-and-exception monad of the methods *)

Definition M (A : Type) : Type := world → outcome A * world.

Definition ret {A} (a : A) : M A := λ w, (Ret a, w).
Definition raise {A} (e : exn) : M A := λ w, (Raise e, w).
Definition bind {A B} (m : M A) (k : A → M B) : M B :=
  λ w, match m w with
       | (Ret a, w') => k a w'
       | (Raise e, w') => (Raise e, w')
       end.
Definition lift {A} (o : outcome A) : M A := λ w, (o, w).

Notation "x <- m ;; k" := (bind m (λ x, k))
  (at level 100, m at next level, right associativity).

(** [for x in l: body(x)]. *)
Fixpoint for_each {A} (l : list A) (body : A → M unit) : M unit :=
  match l with
  | [] => ret tt
  | x :: l' => _ <- body x ;; for_each l' body
  end.

(** ** Methods of [SmartDataStorage] *)

(** An argument bound to a TEXT or a REAL column. *)
Definition text (o : option string) : sqlval :=
  match o with Some s => SText s | None => SNull end.
Definition real (o : option Qc) : sqlval :=
  match o with Some q => SReal q | None => SNull end.
(** A Python bool bound to a BOOL column is stored as 0 or 1. *)
Definition boolean (b : bool) : sqlval := SInt (if b then 1 else 0).

Fixpoint is_in (x : string) (l : list string) : bool :=
  match l with
  | [] => false
  | t :: l' => if decide (t = x) then true else is_in x l'
  end.

Definition is_type_valid (self : sds) (table : string) : bool :=
  is_in table (table_list self).

Definition custom_sql_command (self : sds) (sql : command) : M status :=
  λ w, match execute sql w with
       | (Some _, w') => (Ret STATUS_SUCCESS, w')
       | (None, w') => (Ret STATUS_FAILURE, w')
       end.

Definition update_state (self : sds) (table : string) (i : sqlval) (state : string)
  : M status :=
  λ w, match execute (CUpdateStatus table state i) w with
       | (Some _, w') => (Ret STATUS_SUCCESS, w')
       | (None, w') => (Ret STATUS_FAILURE, w')
       end.

(** [count] is only bound on the valid-table path: for any other name the
    test [if not count] reads an unbound local. *)
Definition get_row_count (self : sds) (table : string) : M Z :=
  if negb (is_type_valid self table) then raise UnboundLocalError
  else λ w, match execute (CCount table) w with
            | (Some (RCount n), w') => (Ret n, w')
            | (_, w') => (Ret 0, w')
            end.

Definition apply_retention_policy (self : sds) (table : string) : M status :=
  ret1 <-
    (if decide (retention_policy self = STORAGE_LIMITED) then
       count <- get_row_count self table ;;
       if decide (count >= retain_max_entries self)%Z then
         if decide (retention_drop_mode self = STORAGE_AGE_OLDEST) then
           custom_sql_command self (CDeleteOldest table (num_to_age self))
         else ret STATUS_STATUS_FULL
       else ret STATUS_SUCCESS
     else ret STATUS_SUCCESS) ;;
  if decide (retention_policy self = STORAGE_MAX_DAYS) then
    if decide (max_days_to_retain self = 0) then ret ret1
    else custom_sql_command self (CDeleteOlder table (max_days_to_retain self))
  else ret ret1.

(** The keyword arguments of [insert], with their defaults. *)
Module kw.
Record t := Make {
  state : option string;
  name : option string;
  msg : option string;
  ts : option string;
  value : option Qc;
  latitude : option Qc;
  longitude : option Qc;
  heading : option Qc;
  altitude : option Qc;
  speed : option Qc;
  accuracy : option Qc;
  fix_type : option Qc;
  alarm_state : option Qc;
  republish : bool
}.

Definition defaults : t :=
  {| state := Some STATE_UNSENT; name := None; msg := Some ""; ts := None;
     value := None; latitude := None; longitude := None; heading := None;
     altitude := None; speed := None; accuracy := None; fix_type := None;
     alarm_state := None; republish := false |}.
End kw.

(** The tuple [values] chosen by the table name; no branch binds it (nor
    [sql]) for the attribute table. *)
Definition insert_values (table : string) (a : kw.t) (ts state : sqlval)
  : option (list sqlval) :=
  if decide (TELEMETRY = table) then
    Some [SText table; text (kw.name a); real (kw.value a); text (kw.msg a);
          ts; SText "desc"; state]
  else if decide (LOCATION = table) then
    Some [SText "location"; SText "location"; real (kw.latitude a);
          real (kw.longitude a); real (kw.heading a); real (kw.altitude a);
          real (kw.speed a); real (kw.accuracy a); real (kw.fix_type a);
          text (kw.msg a); ts; state]
  else if decide (ALARM = table) then
    Some [SText table; text (kw.name a); real (kw.alarm_state a);
          text (kw.msg a); boolean (kw.republish a); ts;
          SNull; SNull; SNull; SNull; state]
  else None.

(** [if not state: state = self.STATE_SENT] and
    [if not ts: ts = datetime.utcnow().strftime(...)]. *)
Definition stored_state (a : kw.t) : sqlval :=
  if truthy (text (kw.state a)) then text (kw.state a) else SText STATE_SENT.

Definition stored_ts (a : kw.t) (w : world) : sqlval :=
  if truthy (text (kw.ts a)) then text (kw.ts a) else SText (utcnow w).

Definition insert (self : sds) (table : string) (a : kw.t) : M status :=
  λ w,
  let state := stored_state a in
  let ts := stored_ts a w in
  if negb (is_type_valid self table) then (Ret STATUS_FULL, w)
  else
    (_ <- apply_retention_policy self table ;;
     match insert_values table a ts state with
     | None => raise UnboundLocalError
     | Some values =>
         λ w1, match execute (CInsert table values) w1 with
               | (Some _, w2) => (Ret STATUS_SUCCESS, w2)
               | (None, w2) => (Ret STATUS_FAILURE, w2)
               end
     end) w.

Definition insert_alarm (self : sds) (name : option string)
    (alarm_state : option Qc) (msg : option string) (republish : bool)
    (ts state : option string) : M status :=
  insert self ALARM
    {| kw.state := state; kw.name := name; kw.msg := msg; kw.ts := ts;
       kw.value := None; kw.latitude := None; kw.longitude := None;
       kw.heading := None; kw.altitude := None; kw.speed := None;
       kw.accuracy := None; kw.fix_type := None;
       kw.alarm_state := alarm_state; kw.republish := republish |}.

Definition insert_telemetry (self : sds) (name : option string)
    (value : option Qc) (msg ts state : option string) : M status :=
  insert self TELEMETRY
    {| kw.state := state; kw.name := name; kw.msg := msg; kw.ts := ts;
       kw.value := value; kw.latitude := None; kw.longitude := None;
       kw.heading := None; kw.altitude := None; kw.speed := None;
       kw.accuracy := None; kw.fix_type := None;
       kw.alarm_state := None; kw.republish := false |}.

(** The wrapper hands [latitude] to [insert] twice: as [latitude] and as
    [longitude]. *)
Definition insert_location (self : sds) (latitude longitude : option Qc)
    (speed heading altitude accuracy fix_type : option Qc)
    (msg ts state : option string) : M status :=
  insert self LOCATION
    {| kw.state := state; kw.name := None; kw.msg := msg; kw.ts := ts;
       kw.value := None; kw.latitude := latitude; kw.longitude := latitude;
       kw.heading := heading; kw.altitude := altitude; kw.speed := speed;
       kw.accuracy := accuracy; kw.fix_type := fix_type;
       kw.alarm_state := None; kw.republish := false |}.

(** A cursor that failed to execute is [None]; so is the cursor of an
    unknown table. *)
Definition select_all_by_state (self : sds) (table state : string)
  : M (option (list row)) :=
  if negb (is_type_valid self table) then ret None
  else λ w, match execute (CSelectStatus table state) w with
            | (Some (RRows rs), w') => (Ret (Some rs), w')
            | (_, w') => (Ret None, w')
            end.

Definition select_table (self : sds) (table : string) : M (option (list row)) :=
  if negb (is_type_valid self table) then ret None
  else λ w, match execute (CSelect table) w with
            | (Some (RRows rs), w') => (Ret (Some rs), w')
            | (_, w') => (Ret None, w')
            end.

(** The dictionary [d[n] = i] filled from the rows of [pragma table_info];
    when the pragma fails, [rows] is unbound at the loop that reads it. *)
Definition info_dict (names : list string) : gmap string nat :=
  foldl (λ d '(i, n), <[n := i]> d) ∅ (imap pair names).

Definition get_table_info (self : sds) (table : string) : M (gmap string nat) :=
  λ w, match execute (CTableInfo table) w with
       | (Some (RInfo names), w') => (Ret (info_dict names), w')
       | (_, w') => (Raise UnboundLocalError, w')
       end.

(** [d[k]]: a KeyError for a missing key. *)
Definition subscript (d : gmap string nat) (k : string) : M nat :=
  match d !! k with
  | Some i => ret i
  | None => raise KeyError
  end.

(** The three-way test of the smoothing loop, with the short-circuit
    evaluation of [and] and of the [elif] chain. *)
Definition insignificant (curr last : sqlval) (plus_minus : Qc) : outcome bool :=
  if py_eq curr last then Ret true
  else
    gt <~ py_gt curr last ;;
    above <~ (if gt : bool then d <~ py_sub curr plus_minus ;; py_le d last
              else Ret false) ;;
    if above : bool then Ret true
    else
      lt <~ py_lt curr last ;;
      if lt : bool then s <~ py_add curr plus_minus ;; py_ge s last
      else Ret false.

(** The loop over the cursor: [last] starts as None; the list built is
    [ignore_list]. *)
Fixpoint smooth_scan (field_idx state_idx idx_idx : nat) (plus_minus : Qc)
    (rows : list row) (last : sqlval) : outcome (list sqlval) :=
  match rows with
  | [] => Ret []
  | r :: rest =>
      curr <~ item r field_idx ;;
      i <~ item r idx_idx ;;
      curr_state <~ item r state_idx ;;
      marked <~ (if truthy last then insignificant curr last plus_minus
                 else Ret false) ;;
      more <~ smooth_scan field_idx state_idx idx_idx plus_minus rest curr ;;
      Ret (if marked : bool then i :: more else more)
  end.

(** The argument [state] is accepted but every update is made with
    [STATE_IGNORE]. *)
Definition data_smooth_on_change (self : sds) (table field_name : string)
    (plus_minus : Qc) (state : string) : M (option (list sqlval)) :=
  if negb (is_in field_name (field_list self)) then ret None
  else
    t <- get_table_info self table ;;
    field_idx <- subscript t field_name ;;
    state_idx <- subscript t "status" ;;
    idx_idx <- subscript t "idx" ;;
    rows <- (λ w, match execute (CSelectStatus table STATE_UNSENT) w with
                  | (Some (RRows rs), w') => (Ret rs, w')
                  | (_, w') => (Ret [], w')
                  end) ;;
    ignore_list <- lift (smooth_scan field_idx state_idx idx_idx plus_minus rows SNull) ;;
    _ <- for_each ignore_list
           (λ i, _ <- update_state self table i STATE_IGNORE ;; ret tt) ;;
    ret (Some ignore_list).

(** The upstream sender.  Each operation answers with a status that may
    depend on the payload and on how many rows the sender was handed before
    in the same publish call (the leading [nat]).  The text rendering
    [str(idx)] of the correlation id is kept as the index itself. *)
Record client := Client {
  telemetry_publish : nat → sqlval → sqlval → sqlval → sqlval → status;
  location_publish :
    nat → sqlval → sqlval → sqlval → sqlval → sqlval → sqlval → sqlval → status;
  alarm_publish : nat → sqlval → sqlval → sqlval → bool → status
}.

(** [update_db[k] = v] on a dictionary kept in insertion order. *)
Fixpoint dict_set (k : sqlval) (v : string) (d : list (sqlval * string))
  : list (sqlval * string) :=
  match d with
  | [] => [(k, v)]
  | (k', v') :: d' =>
      if decide (k' = k) then (k', v) :: d' else (k', v') :: dict_set k v d'
  end.

(** The send loop shared by the three publishers: [send n t] decodes the row
    and calls the sender; the loop breaks at the first answer that is not
    STATUS_SUCCESS and hands back the last answer and [update_db]. *)
Fixpoint publish_loop (send : nat → row → outcome status) (rows : list row)
    (n : nat) (st : status) (update_db : list (sqlval * string))
  : outcome (status * list (sqlval * string)) :=
  match rows with
  | [] => Ret (st, update_db)
  | t :: rest =>
      st' <~ send n t ;;
      if decide (st' ≠ STATUS_SUCCESS) then Ret (st', update_db)
      else
        k <~ item t 0 ;;
        publish_loop send rest (S n) st' (dict_set k STATE_SENT update_db)
  end.

(** The part common to the publishers after the cursor is opened: iterating
    over a [None] cursor is a TypeError; the states are only updated when the
    last answer was STATUS_SUCCESS. *)
Definition publish_unsent (self : sds) (table : string)
    (send : nat → row → outcome status) (new_state : string) : M status :=
  ptr <- select_all_by_state self table STATE_UNSENT ;;
  match ptr with
  | None => raise TypeError
  | Some rows =>
      res <- lift (publish_loop send rows 0 STATUS_FAILURE []) ;;
      _ <- (if decide (res.1 = STATUS_SUCCESS) then
              for_each (res.2).*1
                (λ k, _ <- update_state self table k new_state ;; ret tt)
            else ret tt) ;;
      ret res.1
  end.

Definition publish_unsent_alarms (self : sds) (c : client) (new_state : string)
  : M status :=
  publish_unsent self ALARM
    (λ n t,
       i <~ item t 0 ;;
       name <~ item t 2 ;;
       alarm_state <~ item t 3 ;;
       msg <~ item t 4 ;;
       repub <~ item t 5 ;;
       Ret (alarm_publish c n name alarm_state msg (negb (py_eq repub (SInt 0)))))
    new_state.

Definition publish_unsent_telemetry (self : sds) (c : client) (new_state : string)
  : M status :=
  publish_unsent self TELEMETRY
    (λ n t,
       i <~ item t 0 ;;
       name <~ item t 2 ;;
       value <~ item t 3 ;;
       ts <~ item t 5 ;;
       Ret (telemetry_publish c n name value i ts))
    new_state.

Definition publish_unsent_location (self : sds) (c : client) (new_state : string)
  : M status :=
  publish_unsent self LOCATION
    (λ n t,
       i <~ item t 0 ;;
       latitude <~ item t 3 ;;
       longitude <~ item t 4 ;;
       heading <~ item t 5 ;;
       altitude <~ item t 6 ;;
       speed <~ item t 7 ;;
       accuracy <~ item t 8 ;;
       fix_type <~ item t 9 ;;
       Ret (location_publish c n latitude longitude heading altitude speed
              accuracy fix_type))
    new_state.

(** ** A freshly opened store and small helpers for stating results *)

Definition no_fault : nat → bool := λ _, false.

Definition fresh : world :=
  {| tables := fresh_tables; journal := []; fault := no_fault;
     utcnow := "2018-01-01 00:00:00.000000";
     sql_datetime := λ _, "2017-12-01 00:00:00" |}.

Definition rows_of (w : world) (table : string) : list row :=
  match tables w !! table with
  | Some tb => t_rows tb
  | None => []
  end.

(** The status column of the row with index [i]. *)
Definition state_of (w : world) (table : string) (i : Z) : option sqlval :=
  match tables w !! table with
  | Some tb =>
      match filter (λ r, idx r = i) (t_rows tb), col_index "status" (t_cols tb) with
      | r :: _, Some c => row_get r c
      | _, _ => None
      end
  | None => None
  end.

(** Run a sequence of methods for their effect on the world. *)
Definition exec_ {A} (m : M A) (w : world) : world := (m w).2.
Definition eval_ {A} (m : M A) (w : world) : outcome A := (m w).1.

(** Scenario building: telemetry samples stored through [insert] with the
    state given explicitly, as the demo applications do. *)
Definition sample (v : Z) : M status :=
  insert init TELEMETRY
    {| kw.state := Some STATE_UNSENT; kw.name := Some "property-1";
       kw.msg := Some ""; kw.ts := None; kw.value := Some (Qc_of_Z v);
       kw.latitude := None; kw.longitude := None; kw.heading := None;
       kw.altitude := None; kw.speed := None; kw.accuracy := None;
       kw.fix_type := None; kw.alarm_state := None; kw.republish := false |}.

Fixpoint samples (vs : list Z) (w : world) : world :=
  match vs with
  | [] => w
  | v :: vs' => samples vs' (exec_ (sample v) w)
  end.

(** Following the spec's words (section 4.3): the marking rule of the
    change-detection filter, with [previous_value] either unset or set. *)
Definition spec_mark (previous_value : option Qc) (v threshold : Qc) : bool :=
  match previous_value with
  | None => false
  | Some p =>
      bool_decide (v = p)
      || (bool_decide (p < v)%Qc && bool_decide (v - threshold ≤ p)%Qc)
      || (bool_decide (v < p)%Qc && bool_decide (p ≤ v + threshold)%Qc)
  end.

(** The world after the commands [cs] were sent and left the tables [ts]. *)
Definition after (w : world) (cs : list command) (ts : gmap string table) : world :=
  {| tables := ts; journal := journal w ++ cs; fault := fault w;
     utcnow := utcnow w; sql_datetime := sql_datetime w |}.

(** The rows a publisher or the smoother selects. *)
Definition unsent_rows (tb : table) : list row :=
  filter (λ r, has_status tb STATE_UNSENT r = true) (t_rows tb).

(** A sender that fails on its second call and succeeds otherwise. *)
Definition fails_second : client :=
  {| telemetry_publish := λ n _ _ _ _,
       if decide (n = 1%nat) then STATUS_FAILURE else STATUS_SUCCESS;
     location_publish := λ n _ _ _ _ _ _ _,
       if decide (n = 1%nat) then STATUS_FAILURE else STATUS_SUCCESS;
     alarm_publish := λ n _ _ _ _,
       if decide (n = 1%nat) then STATUS_FAILURE else STATUS_SUCCESS |}.

(** The order invariant of a table: indices strictly ascending and bounded by
    the AUTOINCREMENT mark. *)
Definition ordered (tb : table) : Prop :=
  StronglySorted Z.lt (idx <$> t_rows tb)
  ∧ Forall (λ r, idx r ≤ t_seq tb) (t_rows tb).

(** The commands that only read. *)
Definition read_only (c : command) : bool :=
  match c with
  | CCount _ | CSelect _ | CSelectStatus _ _ | CTableInfo _ => true
  | _ => false
  end.

(** The world with another fault schedule. *)
Definition with_fault (w : world) (f : nat → bool) : world :=
  {| tables := tables w; journal := journal w; fault := f;
     utcnow := utcnow w; sql_datetime := sql_datetime w |}.

(** The store with the drop mode STORAGE_AGE_OLDEST, a maximum and a batch. *)
Definition age_oldest (max batch : Z) : sds :=
  {| retention_policy := STORAGE_LIMITED;
     retention_drop_mode := STORAGE_AGE_OLDEST;
     max_days_to_retain := 31;
     retain_max_entries := max;
     num_to_age := batch;
     table_list := [TELEMETRY; LOCATION; ATTRIBUTE; ALARM];
     field_list := field_list init |}.

(** The store with the drop mode STORAGE_KEEP_OLDEST and a maximum. *)
Definition keep_oldest (max : Z) : sds :=
  {| retention_policy := STORAGE_LIMITED;
     retention_drop_mode := STORAGE_KEEP_OLDEST;
     max_days_to_retain := 31;
     retain_max_entries := max;
     num_to_age := STORAGE_LIMITED_NUM_TO_AGE;
     table_list := [TELEMETRY; LOCATION; ATTRIBUTE; ALARM];
     field_list := field_list init |}.

(** A store whose attribute table holds one row (written through the raw
    cursor, the class has no method that does it). *)
Definition attribute_store : world :=
  set_tables fresh
    (<[ATTRIBUTE := {| t_cols := attribute_cols;
                       t_rows := [{| idx := 1;
                                     cols := [SText "attribute"; SText "model";
                                              SNull; SText "desc"; SInt 0;
                                              SText "2018-01-01 00:00:00.000000";
                                              SText "unsent"] |}];
                       t_seq := 1 |}]> fresh_tables).

(** ** Invariants and scenarios *)

(** A method keeps a property of the world. *)
Definition preserves {A} (P : world → Prop) (m : M A) : Prop :=
  ∀ w, P w → P (exec_ m w).

(** A property of the world that no command aimed at table [t] can break. *)
Definition stable_on (t : string) (P : world → Prop) : Prop :=
  ∀ c w, target c = t → P w → P (execute c w).2.

(** Every table of the store is in order. *)
Definition world_ordered (w : world) : Prop :=
  ∀ t tb, tables w !! t = Some tb → ordered tb.

(** [x if x else d] for an optional string. *)
Definition or_default (o : option string) (d : string) : sqlval :=
  match o with
  | Some s => if decide (s = "") then SText d else SText s
  | None => SText d
  end.

(** The store with the age policy and a number of days. *)
Definition max_days (days : Z) : sds :=
  {| retention_policy := STORAGE_MAX_DAYS;
     retention_drop_mode := STORAGE_AGE_OLDEST;
     max_days_to_retain := days;
     retain_max_entries := STORAGE_LIMITED_MAX;
     num_to_age := STORAGE_LIMITED_NUM_TO_AGE;
     table_list := [TELEMETRY; LOCATION; ATTRIBUTE; ALARM];
     field_list := field_list init |}.

(** Three telemetry samples, all unsent; six commands were sent. *)
Definition three_samples : world := samples [10; 20; 30] fresh.

(** A sample without a value stored after the sample 5. *)
Definition null_after_five : world :=
  exec_ (insert_telemetry init (Some "property-1") None None None (Some STATE_UNSENT))
    (samples [5] fresh).

(** A sender that always succeeds. *)
Definition always_succeeds : client :=
  {| telemetry_publish := λ _ _ _ _ _, STATUS_SUCCESS;
     location_publish := λ _ _ _ _ _ _ _ _, STATUS_SUCCESS;
     alarm_publish := λ _ _ _ _ _, STATUS_SUCCESS |}.

(** * Properties *)

(** ** Basic facts about the backend and the registry *)

Lemma is_in_spec (x : string) (l : list string) : is_in x l = true ↔ x ∈ l.
Proof.
  induction l as [|t l IH]; simpl.
  - split; [discriminate | intros H; inversion H].
  - destruct (decide (t = x)) as [->|Hne].
    + split; [intros _; left | reflexivity].
    + rewrite IH. split; [intros H; by right|].
      intros H. inversion H; subst; [congruence | assumption].
Qed.

Lemma is_in_false (x : string) (l : list string) : x ∉ l → is_in x l = false.
Proof.
  intros H. destruct (is_in x l) eqn:E; [|reflexivity].
  apply is_in_spec in E. contradiction.
Qed.

Lemma execute_ok (c : command) (w : world) (tb : table) :
  fault w (length (journal w)) = false →
  tables w !! target c = Some tb →
  execute c w
  = (Some (run c w tb).2,
     set_tables (log_command c w) (<[target c := (run c w tb).1]> (tables w))).
Proof.
  intros F T. unfold execute. rewrite F, T.
  destruct (run c w tb) as [tb' r]. reflexivity.
Qed.

Lemma execute_fault (c : command) (w : world) :
  fault w (length (journal w)) = true →
  execute c w = (None, log_command c w).
Proof. intros F. unfold execute. rewrite F. reflexivity. Qed.

(** Strictly ascending indices are distinct and already in the order of
    [ORDER BY idx ASC]. *)
Lemma ascending_sorted (zs : list Z) :
  StronglySorted Z.lt zs → merge_sort Z.le zs = zs.
Proof.
  intros H. apply (StronglySorted_unique Z.le).
  - apply StronglySorted_merge_sort; apply _.
  - induction H as [|x l Hl IH Hx]; constructor; [assumption|].
    eapply Forall_impl; [exact Hx|]. intros y Hy. simpl in Hy. lia.
  - apply merge_sort_Permutation.
Qed.

Lemma ascending_NoDup (zs : list Z) : StronglySorted Z.lt zs → NoDup zs.
Proof.
  induction 1 as [|x l Hl IH Hx]; constructor; [|assumption].
  intros Hin. rewrite Forall_forall in Hx. specialize (Hx x Hin). lia.
Qed.

Lemma filter_none {A} (P : A → Prop) `{∀ x, Decision (P x)} (l : list A) :
  (∀ x, x ∈ l → ¬ P x) → filter P l = [].
Proof.
  induction l as [|x l IH]; intros Hl; [reflexivity|].
  rewrite filter_cons_False by (apply Hl; left).
  apply IH. intros y Hy. apply Hl. by right.
Qed.

Lemma filter_all {A} (P : A → Prop) `{∀ x, Decision (P x)} (l : list A) :
  (∀ x, x ∈ l → P x) → filter P l = l.
Proof.
  induction l as [|x l IH]; intros Hl; [reflexivity|].
  rewrite filter_cons_True by (apply Hl; left).
  f_equal. apply IH. intros y Hy. apply Hl. by right.
Qed.

Lemma filter_out_prefix (l1 l2 : list row) :
  NoDup (idx <$> (l1 ++ l2)) →
  filter (λ r, idx r ∉ idx <$> l1) (l1 ++ l2) = l2.
Proof.
  intros Hnd. rewrite filter_app.
  rewrite fmap_app in Hnd. apply NoDup_app in Hnd as (_ & Hdis & _).
  rewrite filter_none, filter_all; [reflexivity| |].
  - intros r Hr Hin. apply (Hdis (idx r) Hin).
    apply list_elem_of_fmap. by exists r.
  - intros r Hr Hn. apply Hn. apply list_elem_of_fmap. by exists r.
Qed.

(** On a table in ascending index order, deleting the [n] oldest rows drops
    the first [n]. *)
Lemma delete_oldest_drop (n : Z) (rs : list row) :
  0 ≤ n → StronglySorted Z.lt (idx <$> rs) →
  filter (λ r, idx r ∉ oldest n rs) rs = drop (Z.to_nat n) rs.
Proof.
  intros Hn Hs. unfold oldest.
  destruct (decide (n < 0)) as [Hneg|_]; [lia|].
  rewrite (ascending_sorted _ Hs), <- fmap_take.
  pose proof (filter_out_prefix (take (Z.to_nat n) rs) (drop (Z.to_nat n) rs)) as H.
  rewrite take_drop in H. apply H. by apply ascending_NoDup.
Qed.

Lemma after_nil (w : world) : after w [] (tables w) = w.
Proof. destruct w. unfold after. simpl. by rewrite app_nil_r. Qed.

Lemma execute_after (c : command) (w0 w : world) (cs : list command)
    (ts : gmap string table) (tb : table) :
  w = after w0 cs ts →
  fault w0 (length (journal w0) + length cs) = false →
  ts !! target c = Some tb →
  execute c w
  = (Some (run c w0 tb).2,
     after w0 (cs ++ [c]) (<[target c := (run c w0 tb).1]> ts)).
Proof.
  intros -> F T.
  rewrite (execute_ok c _ tb); simpl; [| by rewrite length_app | exact T].
  assert (R : run c (after w0 cs ts) tb = run c w0 tb) by (by destruct c).
  rewrite R. unfold set_tables, log_command, after. simpl.
  by rewrite <- app_assoc.
Qed.

Lemma insertable_values (table : string) (a : kw.t) (ts st : sqlval) :
  table ∈ [TELEMETRY; LOCATION; ALARM] →
  ∃ values, insert_values table a ts st = Some values ∧ last values = Some st.
Proof.
  intros H. apply elem_of_cons in H as [->|H]; [eexists; split; reflexivity|].
  apply elem_of_cons in H as [->|H]; [eexists; split; reflexivity|].
  apply elem_of_cons in H as [->|H]; [eexists; split; reflexivity|].
  inversion H.
Qed.


(** ** The order of the rows and the update loop *)

Lemma ascending_filter (P : row → Prop) `{∀ r, Decision (P r)} (rs : list row) :
  StronglySorted Z.lt (idx <$> rs) → StronglySorted Z.lt (idx <$> filter P rs).
Proof.
  induction rs as [|r rs IH]; intros Hs; [constructor|].
  rewrite fmap_cons in Hs. apply StronglySorted_inv in Hs as [Hs Hr].
  rewrite filter_cons. destruct (decide (P r)); [|by apply IH].
  rewrite fmap_cons. constructor; [by apply IH|].
  rewrite Forall_forall in Hr |- *. intros z Hz. apply Hr.
  apply list_elem_of_fmap in Hz as (r' & -> & Hr').
  apply list_elem_of_filter in Hr' as [_ Hr'].
  apply list_elem_of_fmap. by exists r'.
Qed.

Lemma set_status_idx (tb : table) (s : string) (r : row) :
  idx (set_status tb s r) = idx r.
Proof.
  unfold set_status. destruct (col_index "status" (t_cols tb)) as [[|j]|]; reflexivity.
Qed.

Lemma update_keeps_idx (tb : table) (s : string) (i : sqlval) (rs : list row) :
  idx <$> ((λ r, if idx_is i r then set_status tb s r else r) <$> rs) = idx <$> rs.
Proof.
  induction rs as [|r rs IH]; [reflexivity|].
  rewrite !fmap_cons, IH. f_equal.
  destruct (idx_is i r); [apply set_status_idx | reflexivity].
Qed.

(** Every command keeps the order invariant, and a freshly created table has
    it: the tables the engine reaches are in ascending index order. *)
Lemma run_ordered (c : command) (w : world) (tb : table) :
  ordered tb → ordered (run c w tb).1.
Proof.
  intros [Hs Hb]. destruct c; simpl; try (by split).
  - split; simpl.
    + rewrite fmap_app. apply StronglySorted_app_2; [|exact Hs|by repeat constructor].
      intros x y Hx Hy. apply list_elem_of_fmap in Hx as (r & -> & Hr).
      rewrite Forall_forall in Hb. specialize (Hb r Hr).
      simpl in Hy. apply list_elem_of_singleton in Hy as ->. lia.
    + apply Forall_app. split.
      * eapply Forall_impl; [exact Hb|]. intros r Hr. simpl in Hr. lia.
      * repeat constructor. simpl. lia.
  - split; simpl.
    + by rewrite update_keeps_idx.
    + rewrite Forall_forall in Hb |- *. intros r Hr.
      apply list_elem_of_fmap in Hr as (r' & -> & Hr').
      destruct (idx_is i r'); [rewrite set_status_idx|]; by apply Hb.
  - split; simpl.
    + by apply ascending_filter.
    + rewrite Forall_forall in Hb |- *. intros r Hr.
      apply list_elem_of_filter in Hr as [_ Hr]. by apply Hb.
  - split; simpl.
    + by apply ascending_filter.
    + rewrite Forall_forall in Hb |- *. intros r Hr.
      apply list_elem_of_filter in Hr as [_ Hr]. by apply Hb.
Qed.

Lemma empty_table_ordered (cs : list string) : ordered (empty_table cs).
Proof. split; constructor. Qed.

Lemma state_of_tables (w w' : world) (table : string) (z : Z) :
  tables w' = tables w → state_of w' table z = state_of w table z.
Proof. intros H. unfold state_of. by rewrite H. Qed.

Lemma filter_fmap_fixed (g : row → row) (z : Z) (rs : list row) :
  (∀ r, idx (g r) = idx r) → (∀ r, idx r = z → g r = r) →
  filter (λ r, idx r = z) (g <$> rs) = filter (λ r, idx r = z) rs.
Proof.
  intros Hidx Hfix. induction rs as [|r rs IH]; [reflexivity|].
  rewrite fmap_cons, !filter_cons, IH, Hidx.
  destruct (decide (idx r = z)) as [E|_]; [|reflexivity].
  by rewrite (Hfix r E).
Qed.

(** A command never changes the status of a row it does not address: an
    update for another index leaves the row as it is, also when it fails. *)
Lemma update_state_other (self : sds) (table table' : string) (st : string)
    (x : sqlval) (z : Z) (w : world) :
  (∀ r, idx r = z → idx_is x r = false) →
  eval_ (update_state self table x st) w ≠ Raise UnboundLocalError
  ∧ (∃ s, eval_ (update_state self table x st) w = Ret s)
  ∧ state_of (exec_ (update_state self table x st) w) table' z
    = state_of w table' z.
Proof.
  intros Hother. unfold eval_, exec_, update_state, execute. simpl.
  destruct (fault w (length (journal w))); simpl.
  { split; [discriminate|]. split; [by eexists|]. reflexivity. }
  destruct (tables w !! table) as [tb|] eqn:T; simpl.
  2:{ split; [discriminate|]. split; [by eexists|]. reflexivity. }
  split; [discriminate|]. split; [by eexists|].
  unfold state_of. simpl.
  destruct (decide (table = table')) as [<-|Hne].
  - rewrite lookup_insert_eq, T. simpl.
    rewrite filter_fmap_fixed; [reflexivity| |].
    + intros r. destruct (idx_is x r); [apply set_status_idx | reflexivity].
    + intros r Hr. by rewrite (Hother r Hr).
  - by rewrite lookup_insert_ne.
Qed.

Lemma bind_ret {A B} (m : M A) (k : A → M B) (w w1 : world) (a : A) :
  m w = (Ret a, w1) → (x <- m ;; k x) w = k a w1.
Proof. intros H. unfold bind. by rewrite H. Qed.

Lemma bind_raise {A B} (m : M A) (k : A → M B) (w w1 : world) (e : exn) :
  m w = (Raise e, w1) → (x <- m ;; k x) w = (Raise e, w1).
Proof. intros H. unfold bind. by rewrite H. Qed.

(** The update loop of the smoother and of the publishers never raises, and
    it leaves alone every row whose index is not in the list. *)
Lemma mark_all_other (self : sds) (table table' : string) (st : string) (z : Z)
    (l : list sqlval) :
  (∀ x, x ∈ l → ∀ r, idx r = z → idx_is x r = false) →
  ∀ w,
    eval_ (for_each l (λ i, _ <- update_state self table i st ;; ret tt)) w = Ret tt
    ∧ state_of (exec_ (for_each l (λ i, _ <- update_state self table i st ;; ret tt)) w)
        table' z
      = state_of w table' z.
Proof.
  induction l as [|x l IH]; intros Hl w; [by split|].
  destruct (update_state_other self table table' st x z w) as (_ & [s Hs] & Hst).
  { apply Hl. left. }
  destruct (IH (λ y Hy, Hl y (list_elem_of_further _ _ _ Hy))
              (exec_ (update_state self table x st) w)) as [He Hw].
  unfold eval_, exec_ in *.
  destruct (update_state self table x st w) as [o w1] eqn:E. simpl in Hs, Hst, He, Hw.
  subst o.
  assert (Hstep : for_each (x :: l) (λ i, _ <- update_state self table i st ;; ret tt) w
                  = for_each l (λ i, _ <- update_state self table i st ;; ret tt) w1).
  { set (body := λ i, _ <- update_state self table i st ;; ret tt).
    change (for_each (x :: l) body) with (_ <- body x ;; for_each l body).
    apply (bind_ret (body x) (λ _, for_each l body) w w1 tt).
    unfold body. by rewrite (bind_ret _ (λ _, ret tt) w w1 s E). }
  rewrite Hstep. split; [exact He|]. by rewrite Hw.
Qed.

(** A query either fails or answers from the table; either way the tables
    are as before and the journal is one command longer. *)
Lemma execute_query (c : command) (w : world) (tb : table) :
  read_only c = true → tables w !! target c = Some tb →
  (fault w (length (journal w)) = true ∧ execute c w = (None, log_command c w))
  ∨ (fault w (length (journal w)) = false
     ∧ execute c w = (Some (run c w tb).2, log_command c w)).
Proof.
  intros Hro T. unfold execute. rewrite T.
  destruct (fault w (length (journal w))); [left; by split | right].
  split; [reflexivity|].
  destruct c; try discriminate; simpl; unfold set_tables;
    rewrite (insert_id _ _ _ T); reflexivity.
Qed.

Lemma subscript_found (d : gmap string nat) (k : string) (i : nat) (w : world) :
  d !! k = Some i → subscript d k w = (Ret i, w).
Proof. intros H. unfold subscript. by rewrite H. Qed.

Lemma unsent_rows_NoDup (tb : table) :
  NoDup (idx <$> t_rows tb) → NoDup (idx <$> unsent_rows tb).
Proof.
  unfold unsent_rows. induction (t_rows tb) as [|r rs IH]; intros H; [constructor|].
  rewrite fmap_cons in H. apply NoDup_cons in H as [Hr H].
  rewrite filter_cons. destruct (decide (has_status tb STATE_UNSENT r = true)); [|by apply IH].
  rewrite fmap_cons. apply NoDup_cons. split; [|by apply IH].
  intros Hin. apply Hr. apply list_elem_of_fmap in Hin as (r' & -> & Hr').
  apply list_elem_of_filter in Hr' as [_ Hr']. apply list_elem_of_fmap. by exists r'.
Qed.

Lemma mark_all_returns (self : sds) (table st : string) (l : list sqlval) :
  ∀ w, eval_ (for_each l (λ i, _ <- update_state self table i st ;; ret tt)) w
       = Ret tt.
Proof.
  induction l as [|x l IH]; intros w; [reflexivity|].
  set (body := λ i, _ <- update_state self table i st ;; ret tt).
  assert (Hx : ∃ w1, body x w = (Ret tt, w1)).
  { unfold body, bind, update_state.
    destruct (execute (CUpdateStatus table st x) w) as [[r|] w1]; by eexists. }
  destruct Hx as [w1 Hx]. unfold eval_.
  change (for_each (x :: l) body) with (_ <- body x ;; for_each l body).
  rewrite (bind_ret (body x) (λ _, for_each l body) w w1 tt Hx).
  apply IH.
Qed.

(** ** C8: an unregistered field name *)

(** C8.  When the field name is not in the registered field list, the
    smoother returns at once (with None): the world is exactly as before, so
    no command reached the backend (the journal is unchanged) and no row
    changed. *)
Theorem smooth_unregistered_field_fails_fast
    (self : sds) (table field_name : string) (plus_minus : Qc) (state : string)
    (w : world) :
  field_name ∉ field_list self →
  data_smooth_on_change self table field_name plus_minus state w = (Ret None, w).
Proof.
  intros H. unfold data_smooth_on_change.
  rewrite (is_in_false _ _ H). reflexivity.
Qed.

Lemma smooth_unregistered_field_witness :
  ("colour" ∉ field_list init) ∧
  (data_smooth_on_change init TELEMETRY "colour" (Qc_of_Z 2) STATE_IGNORE
     (samples [5; 5] fresh)
   = (Ret None, samples [5; 5] fresh)).
Proof.
  assert (H : "colour" ∉ field_list init).
  { intros H. apply is_in_spec in H. vm_compute in H. discriminate. }
  split; [exact H|].
  exact (smooth_unregistered_field_fails_fast init TELEMETRY "colour"
           (Qc_of_Z 2) STATE_IGNORE (samples [5; 5] fresh) H).
Defined.

(** ** C9: the row count of an unknown table *)

(** C9.  For a table name outside the table list, [get_row_count] never
    binds [count] and raises UnboundLocalError instead of returning 0; no
    command is sent. *)
Theorem get_row_count_unknown_table_raises (self : sds) (table : string) (w : world) :
  table ∉ table_list self →
  get_row_count self table w = (Raise UnboundLocalError, w).
Proof.
  intros H. unfold get_row_count, is_type_valid.
  rewrite (is_in_false _ _ H). reflexivity.
Qed.

Lemma get_row_count_unknown_table_witness :
  ("events" ∉ table_list init) ∧
  (get_row_count init "events" fresh = (Raise UnboundLocalError, fresh)).
Proof.
  assert (H : "events" ∉ table_list init).
  { intros H. apply is_in_spec in H. vm_compute in H. discriminate. }
  split; [exact H|].
  exact (get_row_count_unknown_table_raises init "events" fresh H).
Defined.

(** On the valid-table path the specification holds: an integer comes back, the
    number of rows, or 0 when the query fails. *)
Lemma get_row_count_valid (self : sds) (table : string) (w : world) :
  table ∈ table_list self →
  ∃ n, eval_ (get_row_count self table) w = Ret n ∧
       (fault w (length (journal w)) = true → n = 0) ∧
       (fault w (length (journal w)) = false →
        n = Z.of_nat (length (rows_of w table))).
Proof.
  intros H. apply is_in_spec in H.
  unfold eval_, get_row_count, is_type_valid. rewrite H. simpl.
  unfold execute, rows_of. simpl.
  destruct (fault w (length (journal w))) eqn:F; simpl.
  - exists 0. split; [reflexivity|]. split; [reflexivity | discriminate].
  - destruct (tables w !! table) as [tb|] eqn:T; simpl.
    + destruct (run (CCount table) w tb) as [tb' r] eqn:R. simpl in R.
      injection R as <- <-.
      exists (Z.of_nat (length (t_rows tb))).
      split; [reflexivity|]. split; [discriminate | reflexivity].
    + exists 0. split; [reflexivity|]. split; [discriminate | reflexivity].
Qed.

(** ** C1: the state given to a row when the caller gives none *)

(** C1.  The wrappers pass [state=None] on to [insert], and [insert]
    replaces a false state (None or the empty string) by STATE_SENT: on a
    freshly opened store the row written by [insert_telemetry],
    [insert_alarm] or [insert_location] without a state, or by [insert] with
    the empty string, is stored as 'sent', not 'unsent'.  Only the default of
    [insert]'s own signature yields 'unsent'. *)
Theorem insert_without_state_stores_sent
    (name msg ts : option string) (value a b : option Qc) :
  state_of (exec_ (insert_telemetry init name value msg ts None) fresh)
    TELEMETRY 1 = Some (SText STATE_SENT)
  ∧ state_of (exec_ (insert_telemetry init name value msg ts (Some "")) fresh)
      TELEMETRY 1 = Some (SText STATE_SENT)
  ∧ state_of (exec_ (insert_alarm init name value msg false ts None) fresh)
      ALARM 1 = Some (SText STATE_SENT)
  ∧ state_of (exec_ (insert_location init a b None None None None None msg ts None)
                fresh)
      LOCATION 1 = Some (SText STATE_SENT)
  ∧ state_of (exec_ (insert init TELEMETRY kw.defaults) fresh) TELEMETRY 1
    = Some (SText STATE_UNSENT)
  ∧ SText STATE_SENT ≠ SText STATE_UNSENT.
Proof.
  repeat split; try (vm_compute; reflexivity). discriminate.
Qed.

(** ** C3: reading a location back *)

(** C3.  [insert_location] stores its [latitude] argument in the longitude
    column as well: the row read back through [select_table] has latitude
    [a] in column 4 (longitude), whatever longitude [b] the caller gave. *)
Theorem insert_location_longitude_reads_back_latitude
    (a b : Qc) (speed heading altitude accuracy fix_type : option Qc)
    (msg ts state : option string) :
  col_index LOCATION_LONGITUDE location_cols = Some 4%nat ∧
  ∃ r,
    eval_ (select_table init LOCATION)
      (exec_ (insert_location init (Some a) (Some b) speed heading altitude
                accuracy fix_type msg ts state) fresh)
    = Ret (Some [r])
    ∧ row_get r 3 = Some (SReal a)
    ∧ row_get r 4 = Some (SReal a).
Proof.
  split; [reflexivity|].
  eexists. split; [vm_compute; reflexivity|].
  split; reflexivity.
Qed.

(** The failing input of C3 evaluated: latitude 1, longitude 2. *)
Example insert_location_1_2 :
  ∃ r,
    eval_ (select_table init LOCATION)
      (exec_ (insert_location init (Some (Qc_of_Z 1)) (Some (Qc_of_Z 2))
                None None None None None None None (Some STATE_UNSENT)) fresh)
    = Ret (Some [r])
    ∧ row_get r 4 = Some (SReal (Qc_of_Z 1))
    ∧ row_get r 4 ≠ Some (SReal (Qc_of_Z 2)).
Proof.
  eexists. split; [vm_compute; reflexivity|].
  split; [reflexivity | discriminate].
Qed.

(** For telemetry and alarms the values given do read back, next to the
    constant columns the engine fills in. *)
Example insert_telemetry_reads_back
    (name msg ts : option string) (value : option Qc) :
  eval_ (select_table init TELEMETRY)
    (exec_ (insert_telemetry init name value msg ts (Some STATE_UNSENT)) fresh)
  = Ret (Some [{| idx := 1;
                  cols := [SText TELEMETRY; text name; real value; text msg;
                           stored_ts {| kw.state := None; kw.name := None;
                                        kw.msg := None; kw.ts := ts;
                                        kw.value := None; kw.latitude := None;
                                        kw.longitude := None; kw.heading := None;
                                        kw.altitude := None; kw.speed := None;
                                        kw.accuracy := None; kw.fix_type := None;
                                        kw.alarm_state := None;
                                        kw.republish := false |} fresh;
                           SText "desc"; SText STATE_UNSENT] |}]).
Proof. vm_compute. reflexivity. Qed.

(** ** C4: the state written by the smoother *)

(** C4.  The [state] argument of [data_smooth_on_change] is never used: two
    calls that differ only in it are the same computation, and on the
    samples [5, 5] with [state = STATE_REMOVE] the marked row 2 is set to
    'ignore', not 'remove'.  The list of marked indices is returned. *)
Theorem smooth_ignores_state_argument :
  (∀ self table field_name plus_minus s1 s2,
     data_smooth_on_change self table field_name plus_minus s1
     = data_smooth_on_change self table field_name plus_minus s2)
  ∧ eval_ (data_smooth_on_change init TELEMETRY TELEMETRY_VALUE (Qc_of_Z 0)
             STATE_REMOVE) (samples [5; 5] fresh)
    = Ret (Some [SInt 2])
  ∧ state_of (exec_ (data_smooth_on_change init TELEMETRY TELEMETRY_VALUE
                       (Qc_of_Z 0) STATE_REMOVE) (samples [5; 5] fresh))
      TELEMETRY 2
    = Some (SText STATE_IGNORE)
  ∧ SText STATE_IGNORE ≠ SText STATE_REMOVE.
Proof.
  split; [reflexivity|].
  split; [vm_compute; reflexivity|].
  split; [vm_compute; reflexivity | discriminate].
Qed.

(** The second half of C4 holds: once the table description and the
    selection were read, the call returns the list built by the scan,
    whatever the backend does to the updates that follow. *)
Lemma smooth_returns_marked_list
    (self : sds) (tb : table) (table field_name : string) (plus_minus : Qc)
    (state : string) (w : world) (f s i : nat) (l : list sqlval) :
  field_name ∈ field_list self →
  tables w !! table = Some tb →
  fault w (length (journal w)) = false →
  fault w (S (length (journal w))) = false →
  info_dict (t_cols tb) !! field_name = Some f →
  info_dict (t_cols tb) !! "status" = Some s →
  info_dict (t_cols tb) !! "idx" = Some i →
  smooth_scan f s i plus_minus (unsent_rows tb) SNull = Ret l →
  eval_ (data_smooth_on_change self table field_name plus_minus state) w
  = Ret (Some l).
Proof.
  intros Hfield Htb F0 F1 Hf Hs Hi Hscan.
  apply is_in_spec in Hfield.
  unfold eval_, data_smooth_on_change. rewrite Hfield. simpl.
  set (w1 := log_command (CTableInfo table) w).
  set (w2 := log_command (CSelectStatus table STATE_UNSENT) w1).
  assert (E : get_table_info self table w = (Ret (info_dict (t_cols tb)), w1)).
  { unfold get_table_info.
    destruct (execute_query (CTableInfo table) w tb eq_refl Htb) as [[F _]|[_ ->]];
      [congruence | reflexivity]. }
  rewrite (bind_ret _ _ _ _ _ E).
  rewrite (bind_ret _ _ _ _ _ (subscript_found _ _ _ _ Hf)).
  rewrite (bind_ret _ _ _ _ _ (subscript_found _ _ _ _ Hs)).
  rewrite (bind_ret _ _ _ _ _ (subscript_found _ _ _ _ Hi)).
  assert (Hsel : (λ w, match execute (CSelectStatus table STATE_UNSENT) w with
                       | (Some (RRows rs), w') => (Ret rs, w')
                       | (_, w') => (Ret [], w')
                       end) w1 = (Ret (unsent_rows tb), w2)).
  { destruct (execute_query (CSelectStatus table STATE_UNSENT) w1 tb eq_refl Htb)
      as [[F _]|[_ ->]]; [|reflexivity].
    unfold w1 in F. simpl in F. rewrite length_app in F. simpl in F.
    rewrite Nat.add_1_r in F. congruence. }
  rewrite (bind_ret _ _ _ _ _ Hsel). rewrite Hscan.
  rewrite (bind_ret (lift (Ret l)) _ w2 w2 l eq_refl).
  pose proof (mark_all_returns self table STATE_IGNORE l w2) as He.
  unfold eval_ in He.
  destruct (for_each l (λ i, _ <- update_state self table i STATE_IGNORE ;; ret tt) w2)
    as [o w3] eqn:Hloop.
  simpl in He. subst o.
  by rewrite (bind_ret _ _ w2 w3 tt Hloop).
Qed.

(** The samples [5, 5] with a backend that fails the one update (the
    seventh command since the store was opened): row 2 is still reported as
    marked and stays 'unsent'. *)
Example smooth_update_fails :
  let w := with_fault (samples [5; 5] fresh) (λ n, bool_decide (n = 6%nat)) in
  eval_ (data_smooth_on_change init TELEMETRY TELEMETRY_VALUE (Qc_of_Z 0)
           STATE_IGNORE) w = Ret (Some [SInt 2])
  ∧ state_of (exec_ (data_smooth_on_change init TELEMETRY TELEMETRY_VALUE
                       (Qc_of_Z 0) STATE_IGNORE) w) TELEMETRY 2
    = Some (SText STATE_UNSENT).
Proof. split; vm_compute; reflexivity. Qed.

(** ** C5 and C10: the marking rule of the scan *)

Lemma insignificant_numbers (v p plus_minus : Qc) :
  insignificant (SReal v) (SReal p) plus_minus
  = Ret (spec_mark (Some p) v plus_minus).
Proof.
  unfold insignificant, spec_mark, py_eq, py_gt, py_ge, py_lt, py_le, py_sub,
    py_add; simpl.
  destruct (bool_decide (v = p)); simpl; [reflexivity|].
  destruct (bool_decide (p < v)%Qc); simpl.
  - destruct (bool_decide (v - plus_minus ≤ p)%Qc); simpl; [reflexivity|].
    destruct (bool_decide (v < p)%Qc); reflexivity.
  - destruct (bool_decide (v < p)%Qc); reflexivity.
Qed.

(** What one turn of the loop does: the row is marked exactly when [last] is
    true as a Python object and the three-way test holds; [last] becomes the
    current value either way. *)
Lemma smooth_scan_cons (f s i : nat) (plus_minus : Qc) (r : row)
    (rest : list row) (last : sqlval) (l : list sqlval) :
  smooth_scan f s i plus_minus (r :: rest) last = Ret l →
  ∃ curr ix marked more,
    item r f = Ret curr ∧ item r i = Ret ix ∧
    (if truthy last then insignificant curr last plus_minus else Ret false)
    = Ret marked ∧
    smooth_scan f s i plus_minus rest curr = Ret more ∧
    l = if marked : bool then ix :: more else more.
Proof.
  simpl. destruct (item r f) as [curr|] eqn:Ef; simpl; [|discriminate].
  destruct (item r i) as [ix|] eqn:Ei; simpl; [|discriminate].
  destruct (item r s) as [st|] eqn:Es; simpl; [|discriminate].
  destruct (if truthy last then insignificant curr last plus_minus else Ret false)
    as [marked|] eqn:Em; simpl; [|discriminate].
  destruct (smooth_scan f s i plus_minus rest curr) as [more|] eqn:Er; simpl;
    [|discriminate].
  intros [= <-]. exists curr, ix, marked, more. by repeat split.
Qed.

(** The rule of the spec and the rule of the code, side by side on a pair of
    numbers: they agree when the previous value is not zero and differ when
    it is zero and the rule of the spec marks. *)
Lemma scan_pair_numbers (f s : nat) (plus_minus p v : Qc) (r0 r1 : row) :
  item r0 f = Ret (SReal p) → item r1 f = Ret (SReal v) →
  is_Some (row_get r0 s) → is_Some (row_get r1 s) →
  smooth_scan f s 0 plus_minus [r0; r1] SNull
  = Ret (if truthy (SReal p) && spec_mark (Some p) v plus_minus
         then [SInt (idx r1)] else []).
Proof.
  intros H0 H1 [s0 Hs0] [s1 Hs1]. simpl.
  unfold item in *. rewrite Hs0, Hs1. simpl.
  destruct (row_get r0 f); [|discriminate]. injection H0 as ->.
  destruct (row_get r1 f); [|discriminate]. injection H1 as ->.
  simpl. destruct (negb (bool_decide (p = Q2Qc 0))); simpl; [|reflexivity].
  rewrite insignificant_numbers. simpl.
  destruct (bool_decide (v = p)
            || bool_decide (p < v)%Qc && bool_decide (v - plus_minus ≤ p)%Qc
            || bool_decide (v < p)%Qc && bool_decide (p ≤ v + plus_minus)%Qc);
    reflexivity.
Qed.

(** C5.  The three examples of the specification evaluate as stated, but the rule
    is not the one stated: the loop tests [if last:], so a previous value of
    0 counts as no previous value.  On the samples [0, 0] with threshold 0
    the rule of the spec marks row 2 (equal to the previous value) and the
    code marks nothing. *)
Theorem smooth_examples_and_zero_previous :
  eval_ (data_smooth_on_change init TELEMETRY TELEMETRY_VALUE (Qc_of_Z 0)
           STATE_IGNORE) (samples [5; 5; 5] fresh)
  = Ret (Some [SInt 2; SInt 3])
  ∧ eval_ (data_smooth_on_change init TELEMETRY TELEMETRY_VALUE (Qc_of_Z 2)
             STATE_IGNORE) (samples [5; 6; 7] fresh)
    = Ret (Some [SInt 2; SInt 3])
  ∧ eval_ (data_smooth_on_change init TELEMETRY TELEMETRY_VALUE (Qc_of_Z 2)
             STATE_IGNORE) (samples [5; 10] fresh)
    = Ret (Some [])
  ∧ eval_ (data_smooth_on_change init TELEMETRY TELEMETRY_VALUE (Qc_of_Z 0)
             STATE_IGNORE) (samples [0; 0] fresh)
    = Ret (Some [])
  ∧ spec_mark (Some (Qc_of_Z 0)) (Qc_of_Z 0) (Qc_of_Z 0) = true.
Proof.
  repeat split; vm_compute; reflexivity.
Qed.

(** With the index read from column 0, only indices of scanned rows are
    marked. *)
Lemma smooth_scan_marks_scanned (f s : nat) (plus_minus : Qc) (rows : list row) :
  ∀ (last : sqlval) (l : list sqlval) (x : sqlval),
    smooth_scan f s 0 plus_minus rows last = Ret l →
    x ∈ l → ∃ r, r ∈ rows ∧ x = SInt (idx r).
Proof.
  induction rows as [|r rest IH]; intros last l x H Hx.
  - simpl in H. injection H as <-. inversion Hx.
  - apply smooth_scan_cons in H
      as (curr & ix & marked & more & _ & Hi & _ & Hmore & ->).
    unfold item in Hi. simpl in Hi. injection Hi as <-.
    assert (Hcase : x = SInt (idx r) ∨ x ∈ more).
    { destruct marked; [|by right].
      inversion Hx; subst; [by left | by right]. }
    destruct Hcase as [->|Hin].
    + exists r. split; [left | reflexivity].
    + destruct (IH curr more x Hmore Hin) as (r' & Hr' & ->).
      exists r'. split; [by right | reflexivity].
Qed.

(** A row that follows a row whose compared value is false as a Python
    object (0, 0.0, None, the empty string) adds nothing to the list. *)
Lemma smooth_scan_after_falsy (f s : nat) (plus_minus : Qc) (r0 r1 : row)
    (post : list row) (last v0 : sqlval) (l : list sqlval) (x : sqlval) :
  item r0 f = Ret v0 → truthy v0 = false →
  smooth_scan f s 0 plus_minus (r0 :: r1 :: post) last = Ret l →
  x ∈ l → x = SInt (idx r0) ∨ ∃ r, r ∈ post ∧ x = SInt (idx r).
Proof.
  intros H0 Hf H Hx.
  apply smooth_scan_cons in H
    as (curr & ix & marked & more & Hc & Hi & _ & Hmore & ->).
  rewrite H0 in Hc. injection Hc as <-.
  unfold item in Hi. simpl in Hi. injection Hi as <-.
  apply smooth_scan_cons in Hmore
    as (curr1 & ix1 & marked1 & more1 & _ & _ & Hm1 & Hmore1 & ->).
  rewrite Hf in Hm1. injection Hm1 as <-.
  assert (Hcase : x = SInt (idx r0) ∨ x ∈ more1).
  { destruct marked; [|by right].
    inversion Hx; subst; [by left | by right]. }
  destruct Hcase as [->|Hin]; [by left|].
  right. exact (smooth_scan_marks_scanned f s plus_minus post curr1 more1 x Hmore1 Hin).
Qed.

(** The same through a prefix of scanned rows: whatever ends up in the list
    names a row before [r0], [r0] itself, or a row after [r1]. *)
Lemma smooth_scan_skips (f s : nat) (plus_minus : Qc) (pre post : list row)
    (r0 r1 : row) (v0 : sqlval) :
  item r0 f = Ret v0 → truthy v0 = false →
  ∀ (last : sqlval) (l : list sqlval) (x : sqlval),
    smooth_scan f s 0 plus_minus (pre ++ r0 :: r1 :: post) last = Ret l →
    x ∈ l →
    (∃ r, r ∈ pre ∧ x = SInt (idx r)) ∨ x = SInt (idx r0)
    ∨ (∃ r, r ∈ post ∧ x = SInt (idx r)).
Proof.
  intros H0 Hf. induction pre as [|p pre IH]; intros last l x H Hx.
  - right. exact (smooth_scan_after_falsy f s plus_minus r0 r1 post last v0 l x
                    H0 Hf H Hx).
  - rewrite <- app_comm_cons in H.
    apply smooth_scan_cons in H
      as (curr & ix & marked & more & _ & Hi & _ & Hmore & ->).
    unfold item in Hi. simpl in Hi. injection Hi as <-.
    assert (Hcase : x = SInt (idx p) ∨ x ∈ more).
    { destruct marked; [|by right].
      inversion Hx; subst; [by left | by right]. }
    destruct Hcase as [->|Hin].
    + left. exists p. split; [left | reflexivity].
    + destruct (IH curr more x Hmore Hin) as [(r & Hr & ->)|[->|(r & Hr & ->)]].
      * left. exists r. split; [by right | reflexivity].
      * right. by left.
      * right. right. by exists r.
Qed.

(** In a list of rows with distinct indices, a row's index is not that of
    any row before or after it. *)
Lemma distinct_middle (pre post : list row) (r0 r1 : row) :
  NoDup (idx <$> pre ++ r0 :: r1 :: post) →
  (∀ r, r ∈ pre → idx r ≠ idx r1) ∧ idx r0 ≠ idx r1
  ∧ (∀ r, r ∈ post → idx r ≠ idx r1).
Proof.
  rewrite fmap_app, !fmap_cons. intros H.
  apply NoDup_app in H as (_ & Hpre & H).
  apply NoDup_cons in H as [H0 H]. apply NoDup_cons in H as [H1 _].
  split; [|split].
  - intros r Hr E. apply (Hpre (idx r)); [apply list_elem_of_fmap; by exists r|].
    rewrite E. right. left.
  - intros E. apply H0. rewrite E. left.
  - intros r Hr E. apply H1. rewrite <- E. apply list_elem_of_fmap. by exists r.
Qed.

(** C10.  In any scanned sequence whose indices are distinct (the primary
    key), let [r1] come right after a row [r0] whose compared value is false
    as a Python object, in particular 0.  The scan goes on from [r1] as it
    would with no previous value at all and, whatever the threshold, the
    value of [r1] and the rows around, the index of [r1] is not in the list
    the scan builds. *)
Theorem smooth_scan_never_marks_after_zero
    (f s : nat) (plus_minus : Qc) (pre post : list row) (r0 r1 : row)
    (v0 : sqlval) :
  item r0 f = Ret v0 → truthy v0 = false →
  NoDup (idx <$> pre ++ r0 :: r1 :: post) →
  smooth_scan f s 0 plus_minus (r1 :: post) v0
  = smooth_scan f s 0 plus_minus (r1 :: post) SNull
  ∧ ∀ (last : sqlval) (l : list sqlval),
      smooth_scan f s 0 plus_minus (pre ++ r0 :: r1 :: post) last = Ret l →
      SInt (idx r1) ∉ l.
Proof.
  intros H0 Hf Hnd. split; [simpl; by rewrite Hf|].
  intros last l H Hin.
  destruct (distinct_middle pre post r0 r1 Hnd) as (Hpre & Hne & Hpost).
  destruct (smooth_scan_skips f s plus_minus pre post r0 r1 v0 H0 Hf last l _ H Hin)
    as [(r & Hr & E)|[E|(r & Hr & E)]]; injection E as E.
  - exact (Hpre r Hr (eq_sym E)).
  - exact (Hne (eq_sym E)).
  - exact (Hpost r Hr (eq_sym E)).
Qed.

Lemma smooth_scan_never_marks_after_zero_witness :
  let r0 := {| idx := 1; cols := [SText "telemetry"; SText "t";
                                  SReal (Qc_of_Z 0); SText "unsent"] |} in
  let r1 := {| idx := 2; cols := [SText "telemetry"; SText "t";
                                  SReal (Qc_of_Z 0); SText "unsent"] |} in
  smooth_scan 3 4 0 (Qc_of_Z 5) ([] ++ r0 :: r1 :: []) SNull = Ret []
  ∧ smooth_scan 3 4 0 (Qc_of_Z 5) [r1] (SReal (Qc_of_Z 0))
    = smooth_scan 3 4 0 (Qc_of_Z 5) [r1] SNull
  ∧ SInt (idx r1) ∉ ([] : list sqlval).
Proof.
  intros r0 r1. split; [reflexivity|].
  assert (Hnd : NoDup (idx <$> ([] ++ r0 :: r1 :: []))).
  { apply (bool_decide_unpack _). vm_compute. exact I. }
  destruct (smooth_scan_never_marks_after_zero 3 4 (Qc_of_Z 5) [] [] r0 r1
              (SReal (Qc_of_Z 0)) eq_refl eq_refl Hnd) as [Hsame Hnever].
  split; [exact Hsame | exact (Hnever SNull [] eq_refl)].
Defined.

(** C10 at the level of the store.  Let the unsent rows of a table, with
    distinct indices, contain [r1] right after a row [r0] whose compared
    field is false as a Python object (0 in particular).  Whatever the
    threshold, the other rows and the faults of the backend, after
    [data_smooth_on_change] the status of [r1] is what it was, and the list
    returned, if any, does not hold its index. *)
Corollary smooth_leaves_row_after_zero
    (self : sds) (tb : table) (table field_name : string) (plus_minus : Qc)
    (state : string) (w : world) (f s : nat) (pre post : list row)
    (r0 r1 : row) (v0 : sqlval) :
  tables w !! table = Some tb →
  NoDup (idx <$> t_rows tb) →
  info_dict (t_cols tb) !! field_name = Some f →
  info_dict (t_cols tb) !! "status" = Some s →
  info_dict (t_cols tb) !! "idx" = Some 0%nat →
  unsent_rows tb = pre ++ r0 :: r1 :: post →
  item r0 f = Ret v0 → truthy v0 = false →
  state_of (exec_ (data_smooth_on_change self table field_name plus_minus state) w)
    table (idx r1)
  = state_of w table (idx r1)
  ∧ ∀ l, eval_ (data_smooth_on_change self table field_name plus_minus state) w
         = Ret (Some l) → SInt (idx r1) ∉ l.
Proof.
  intros Htb Hnd Hf Hs Hi Hrows H0 Hfalsy.
  unfold eval_, exec_, data_smooth_on_change.
  destruct (is_in field_name (field_list self)); simpl;
    [|split; [reflexivity | intros l [=]]].
  assert (Hinfo : get_table_info self table w = (Raise UnboundLocalError, log_command (CTableInfo table) w)
                  ∨ get_table_info self table w
                    = (Ret (info_dict (t_cols tb)), log_command (CTableInfo table) w)).
  { unfold get_table_info.
    destruct (execute_query (CTableInfo table) w tb eq_refl Htb) as [[_ ->]|[_ ->]];
      [by left | by right]. }
  destruct Hinfo as [E|E].
  { rewrite (bind_raise _ _ _ _ _ E). simpl. split; [reflexivity | intros l [=]]. }
  rewrite (bind_ret _ _ _ _ _ E).
  rewrite (bind_ret _ _ _ _ _ (subscript_found _ _ _ _ Hf)).
  rewrite (bind_ret _ _ _ _ _ (subscript_found _ _ _ _ Hs)).
  rewrite (bind_ret _ _ _ _ _ (subscript_found _ _ _ _ Hi)).
  set (w1 := log_command (CTableInfo table) w).
  set (w2 := log_command (CSelectStatus table STATE_UNSENT) w1).
  assert (Hsel : ∃ rows,
            (rows = [] ∨ rows = unsent_rows tb) ∧
            (λ w, match execute (CSelectStatus table STATE_UNSENT) w with
                  | (Some (RRows rs), w') => (Ret rs, w')
                  | (_, w') => (Ret [], w')
                  end) w1 = (Ret rows, w2)).
  { destruct (execute_query (CSelectStatus table STATE_UNSENT) w1 tb eq_refl Htb)
      as [[_ ->]|[_ ->]]; [exists []; split; [by left | reflexivity]|].
    exists (unsent_rows tb). split; [by right | reflexivity]. }
  destruct Hsel as (rows & Hrows' & Hsel).
  rewrite (bind_ret _ _ _ _ _ Hsel).
  destruct (smooth_scan f s 0 plus_minus rows SNull) as [l|e] eqn:Hscan.
  2:{ rewrite (bind_raise (lift (Raise e)) _ w2 w2 e eq_refl). simpl.
      split; [reflexivity | intros l [=]]. }
  rewrite (bind_ret (lift (Ret l)) _ w2 w2 l eq_refl).
  assert (Hnotin : SInt (idx r1) ∉ l).
  { destruct Hrows' as [->| ->].
    - simpl in Hscan. injection Hscan as <-. intros H; inversion H.
    - apply unsent_rows_NoDup in Hnd. rewrite Hrows in Hnd, Hscan.
      destruct (distinct_middle pre post r0 r1 Hnd) as (Hpre & Hne & Hpost).
      intros Hin.
      destruct (smooth_scan_skips f s plus_minus pre post r0 r1 v0 H0 Hfalsy
                  SNull l _ Hscan Hin)
        as [(r & Hr & Ex)|[Ex|(r & Hr & Ex)]]; injection Ex as Ex.
      + exact (Hpre r Hr (eq_sym Ex)).
      + exact (Hne (eq_sym Ex)).
      + exact (Hpost r Hr (eq_sym Ex)). }
  assert (Hl : ∀ x, x ∈ l → ∀ r, idx r = idx r1 → idx_is x r = false).
  { intros x Hx r Hr.
    destruct (smooth_scan_marks_scanned f s plus_minus rows SNull l x Hscan Hx)
      as (r' & _ & ->).
    simpl. apply bool_decide_eq_false. intros E'. apply Hnotin.
    by rewrite <- Hr, E'. }
  destruct (mark_all_other self table table STATE_IGNORE (idx r1) l Hl w2) as [He Hw].
  unfold eval_, exec_ in He, Hw.
  destruct (for_each l (λ i, _ <- update_state self table i STATE_IGNORE ;; ret tt) w2)
    as [o w3] eqn:Hloop.
  simpl in He, Hw. subst o.
  rewrite (bind_ret _ _ w2 w3 tt Hloop). simpl.
  split; [by rewrite Hw | intros l' [= <-]; exact Hnotin].
Qed.

Example smooth_after_zero_in_store :
  let w := samples [0; 0; 3] fresh in
  state_of (exec_ (data_smooth_on_change init TELEMETRY TELEMETRY_VALUE
                     (Qc_of_Z 5) STATE_IGNORE) w) TELEMETRY 2
  = Some (SText STATE_UNSENT)
  ∧ eval_ (data_smooth_on_change init TELEMETRY TELEMETRY_VALUE (Qc_of_Z 5)
             STATE_IGNORE) w = Ret (Some []).
Proof. split; vm_compute; reflexivity. Qed.

(** ** C6 and C7: retention by count at insert time *)

(** C6, amended.  Under the limited-count policy with maximum [N], batch [B]
    (0 <= B <= N) and drop mode STORAGE_AGE_OLDEST, an insert into a
    telemetry, location or alarm table that holds at least [N] rows, in
    ascending index order, on a backend that does not fail, sends three
    commands in this order: the count, the deletion of the [B] rows with the
    smallest indices, the insertion.  The table then holds the old rows
    without their first [B], followed by the new row; from exactly [N] rows
    this leaves [N - B + 1]. *)
Theorem insert_ages_oldest (self : sds) (tb : table) (table : string) (a : kw.t)
    (w : world) (N B : Z) :
  retention_policy self = STORAGE_LIMITED →
  retention_drop_mode self = STORAGE_AGE_OLDEST →
  retain_max_entries self = N → num_to_age self = B →
  0 ≤ B ≤ N →
  table ∈ table_list self → table ∈ [TELEMETRY; LOCATION; ALARM] →
  tables w !! table = Some tb →
  StronglySorted Z.lt (idx <$> t_rows tb) →
  N ≤ Z.of_nat (length (t_rows tb)) →
  (∀ n, fault w n = false) →
  ∃ values,
    insert_values table a (stored_ts a w) (stored_state a) = Some values
    ∧ eval_ (insert self table a) w = Ret STATUS_SUCCESS
    ∧ journal (exec_ (insert self table a) w)
      = journal w ++ [CCount table; CDeleteOldest table B; CInsert table values]
    ∧ rows_of (exec_ (insert self table a) w) table
      = drop (Z.to_nat B) (t_rows tb) ++ [{| idx := t_seq tb + 1; cols := values |}]
    ∧ (Z.of_nat (length (t_rows tb)) = N →
       Z.of_nat (length (rows_of (exec_ (insert self table a) w) table))
       = N - B + 1).
Proof.
  intros Hpol Hmode HN HB HBN Hvalid Hkind Htb Hsorted Hcount Hfault.
  destruct (insertable_values table a (stored_ts a w) (stored_state a) Hkind)
    as (values & Hvalues & _).
  exists values. split; [exact Hvalues|].
  assert (Hrun : insert self table a w
    = (Ret STATUS_SUCCESS,
       after w [CCount table; CDeleteOldest table B; CInsert table values]
         (<[table := {| t_cols := t_cols tb;
                        t_rows := drop (Z.to_nat B) (t_rows tb)
                                  ++ [{| idx := t_seq tb + 1; cols := values |}];
                        t_seq := t_seq tb + 1 |}]> (tables w)))).
  { unfold insert, is_type_valid.
    apply is_in_spec in Hvalid. rewrite Hvalid. simpl.
    unfold bind, apply_retention_policy, bind, get_row_count, is_type_valid.
    rewrite Hvalid, Hpol. simpl.
    rewrite (execute_after (CCount table) w w [] (tables w) tb);
      [|by rewrite after_nil|rewrite Nat.add_0_r; apply Hfault|exact Htb].
    simpl. rewrite insert_id by exact Htb.
    rewrite HN.
    destruct (decide (Z.of_nat (length (t_rows tb)) >= N)) as [_|Hlt]; [|lia].
    rewrite Hmode. simpl. unfold custom_sql_command.
    rewrite (execute_after (CDeleteOldest table (num_to_age self)) w _
               [CCount table] (tables w) tb eq_refl (Hfault _) Htb).
    simpl. unfold ret. rewrite Hvalues.
    erewrite (execute_after (CInsert table values) w _ _ _ _ eq_refl (Hfault _)).
    2:{ simpl. apply lookup_insert_eq. }
    simpl. rewrite insert_insert_eq, HB.
    rewrite delete_oldest_drop by (lia || assumption).
    reflexivity. }
  unfold eval_, exec_, rows_of. rewrite Hrun. simpl.
  rewrite lookup_insert_eq. simpl.
  repeat split. intros Hlen.
  rewrite length_app, length_drop. simpl. lia.
Qed.

Lemma insert_ages_oldest_witness :
  let self := age_oldest 3 2 in
  let w := samples [10; 20; 30] fresh in
  ∃ tb values,
    tables w !! TELEMETRY = Some tb
    ∧ insert_values TELEMETRY kw.defaults (stored_ts kw.defaults w)
        (stored_state kw.defaults) = Some values
    ∧ eval_ (insert self TELEMETRY kw.defaults) w = Ret STATUS_SUCCESS
    ∧ journal (exec_ (insert self TELEMETRY kw.defaults) w)
      = journal w ++ [CCount TELEMETRY; CDeleteOldest TELEMETRY 2;
                      CInsert TELEMETRY values]
    ∧ rows_of (exec_ (insert self TELEMETRY kw.defaults) w) TELEMETRY
      = drop (Z.to_nat 2) (t_rows tb) ++ [{| idx := t_seq tb + 1; cols := values |}]
    ∧ (Z.of_nat (length (t_rows tb)) = 3 →
       Z.of_nat (length (rows_of (exec_ (insert self TELEMETRY kw.defaults) w)
                           TELEMETRY)) = 3 - 2 + 1).
Proof.
  intros self w.
  assert (Htb : ∃ tb, tables w !! TELEMETRY = Some tb) by (vm_compute; by eexists).
  destruct Htb as [tb Htb]. exists tb.
  assert (Hsorted : StronglySorted Z.lt (idx <$> t_rows tb)).
  { vm_compute in Htb. injection Htb as <-.
    apply (bool_decide_unpack _). vm_compute. exact I. }
  assert (Hcount : 3 ≤ Z.of_nat (length (t_rows tb))).
  { vm_compute in Htb. injection Htb as <-. vm_compute. discriminate. }
  destruct (insert_ages_oldest self tb TELEMETRY kw.defaults w 3 2
              eq_refl eq_refl eq_refl eq_refl ltac:(lia)
              (proj1 (is_in_spec TELEMETRY (table_list self)) eq_refl)
              (proj1 (is_in_spec TELEMETRY [TELEMETRY; LOCATION; ALARM]) eq_refl)
              Htb Hsorted Hcount (λ n, eq_refl))
    as (values & H).
  exists values. split; [exact Htb | exact H].
Defined.

(** C6 as stated fails when the batch exceeds the maximum, as with a
    maximum of 1 and the default batch of 20: the deletion is limited to 20
    rows but finds only one, so the table holds 1 row after the insert, not
    1 - 20 + 1.  It also fails on the attribute table, where the oldest row
    is deleted and the insert then raises: the table is left empty. *)
Lemma insert_batch_above_max :
  let self := age_oldest 1 STORAGE_LIMITED_NUM_TO_AGE in
  let w := samples [10] fresh in
  let self' := age_oldest 1 1 in
  Z.of_nat (length (rows_of w TELEMETRY)) = retain_max_entries self
  ∧ eval_ (insert self TELEMETRY kw.defaults) w = Ret STATUS_SUCCESS
  ∧ Z.of_nat (length (rows_of (exec_ (insert self TELEMETRY kw.defaults) w)
                        TELEMETRY)) = 1
  ∧ retain_max_entries self - num_to_age self + 1 = -18
  ∧ Z.of_nat (length (rows_of attribute_store ATTRIBUTE))
    = retain_max_entries self'
  ∧ eval_ (insert self' ATTRIBUTE kw.defaults) attribute_store
    = Raise UnboundLocalError
  ∧ rows_of (exec_ (insert self' ATTRIBUTE kw.defaults) attribute_store)
      ATTRIBUTE = []
  ∧ retain_max_entries self' - num_to_age self' + 1 = 1.
Proof.
  intros self w self'. repeat split; vm_compute; reflexivity.
Qed.




(** ** C2: a sender that fails part of the way *)

(** The send loop when the sender answers STATUS_SUCCESS for the first [k]
    rows and something else for the next one: the loop breaks there and hands
    back that answer. *)
Lemma publish_loop_breaks (send : nat → row → outcome status) (st' : status) :
  st' ≠ STATUS_SUCCESS →
  ∀ (rows : list row) (k n : nat) (st : status) (update_db : list (sqlval * string)),
    (∀ i r, (i < k)%nat → rows !! i = Some r → send (n + i)%nat r = Ret STATUS_SUCCESS) →
    (∃ r, rows !! k = Some r ∧ send (n + k)%nat r = Ret st') →
    ∃ update_db', publish_loop send rows n st update_db = Ret (st', update_db').
Proof.
  intros Hne. induction rows as [|t rest IH]; intros k n st update_db Hok (r & Hr & Hk).
  - rewrite lookup_nil in Hr. discriminate.
  - destruct k as [|k]; simpl.
    + simpl in Hr. injection Hr as ->. rewrite Nat.add_0_r in Hk. rewrite Hk. simpl.
      destruct (decide (st' ≠ STATUS_SUCCESS)) as [_|Hc]; [|contradiction].
      by eexists.
    + pose proof (Hok 0%nat t (Nat.lt_0_succ k) eq_refl) as H0.
      rewrite Nat.add_0_r in H0. rewrite H0. simpl.
      apply (IH k (S n)).
      * intros i r' Hi Hr'. rewrite Nat.add_succ_l, <- Nat.add_succ_r.
        apply Hok; [lia | exact Hr'].
      * exists r. split; [exact Hr|].
        by rewrite Nat.add_succ_l, <- Nat.add_succ_r.
Qed.

Lemma publish_unsent_breaks (self : sds) (tb : table) (table : string)
    (send : nat → row → outcome status) (new_state : string) (w : world)
    (k : nat) (st : status) :
  table ∈ table_list self →
  tables w !! table = Some tb →
  fault w (length (journal w)) = false →
  (∀ i r, (i < k)%nat →
     filter (λ r, has_status tb STATE_UNSENT r = true) (t_rows tb) !! i = Some r →
     send i r = Ret STATUS_SUCCESS) →
  (∃ r, filter (λ r, has_status tb STATE_UNSENT r = true) (t_rows tb) !! k = Some r
        ∧ send k r = Ret st) →
  st ≠ STATUS_SUCCESS →
  publish_unsent self table send new_state w
  = (Ret st, after w [CSelectStatus table STATE_UNSENT] (tables w)).
Proof.
  intros Hvalid Htb Hfault Hok Hk Hne. apply is_in_spec in Hvalid.
  unfold publish_unsent, bind, select_all_by_state, is_type_valid.
  rewrite Hvalid. simpl.
  rewrite (execute_after (CSelectStatus table STATE_UNSENT) w w [] (tables w) tb);
    [|by rewrite after_nil|by rewrite Nat.add_0_r|exact Htb].
  simpl. rewrite insert_id by exact Htb.
  destruct (publish_loop_breaks send st Hne _ k 0%nat STATUS_FAILURE [] Hok Hk)
    as (upd & Hloop).
  unfold lift. rewrite Hloop. simpl.
  destruct (decide (st = STATUS_SUCCESS)) as [E|_]; [contradiction|].
  reflexivity.
Qed.

Lemma unsent_row_stored (tb : table) (i : nat) (r : row) :
  unsent_rows tb !! i = Some r → r ∈ t_rows tb.
Proof.
  intros H. apply list_elem_of_lookup_2 in H.
  by apply list_elem_of_filter in H as [_ ?].
Qed.

Lemma item_wide (r : row) (i : nat) :
  (i ≤ length (cols r))%nat → ∃ v, item r i = Ret v.
Proof.
  intros H. unfold item. destruct i as [|j]; simpl; [by eexists|].
  destruct (lookup_lt_is_Some_2 (cols r) j) as [v Hv]; [lia|].
  rewrite Hv. by eexists.
Qed.



(** The same for alarms and for locations: the three publishers share the
    loop and the guard. *)
Lemma publish_unsent_alarms_failure_updates_nothing
    (self : sds) (c : client) (new_state : string) (w : world) (tb : table)
    (k : nat) (st : status) :
  ALARM ∈ table_list self →
  tables w !! ALARM = Some tb →
  fault w (length (journal w)) = false →
  Forall (λ r, (5 ≤ length (cols r))%nat) (t_rows tb) →
  (k < length (unsent_rows tb))%nat →
  (∀ i name alarm_state msg repub,
     (i < k)%nat → alarm_publish c i name alarm_state msg repub = STATUS_SUCCESS) →
  (∀ name alarm_state msg repub, alarm_publish c k name alarm_state msg repub = st) →
  st ≠ STATUS_SUCCESS →
  eval_ (publish_unsent_alarms self c new_state) w = Ret st
  ∧ tables (exec_ (publish_unsent_alarms self c new_state) w) = tables w
  ∧ journal (exec_ (publish_unsent_alarms self c new_state) w)
    = journal w ++ [CSelectStatus ALARM STATE_UNSENT].
Proof.
  intros Hvalid Htb Hfault Hwide Hk Hok Hfail Hne.
  assert (Hsend : ∀ i r, r ∈ t_rows tb →
            ∃ n a m b, (λ n t, i <~ item t 0 ;; name <~ item t 2 ;;
                               alarm_state <~ item t 3 ;; msg <~ item t 4 ;;
                               repub <~ item t 5 ;;
                               Ret (alarm_publish c n name alarm_state msg
                                      (negb (py_eq repub (SInt 0))))) i r
                       = Ret (alarm_publish c i n a m b)).
  { intros i r Hr. rewrite Forall_forall in Hwide. specialize (Hwide r Hr).
    destruct (item_wide r 2) as [v2 H2]; [lia|].
    destruct (item_wide r 3) as [v3 H3]; [lia|].
    destruct (item_wide r 4) as [v4 H4]; [lia|].
    destruct (item_wide r 5) as [v5 H5]; [lia|].
    exists v2, v3, v4, (negb (py_eq v5 (SInt 0))). cbv beta.
    rewrite H2, H3, H4, H5. reflexivity. }
  unfold eval_, exec_, publish_unsent_alarms.
  rewrite (publish_unsent_breaks self tb ALARM _ new_state w k st
             Hvalid Htb Hfault); [by repeat split| | |exact Hne].
  - intros i r Hi Hr.
    destruct (Hsend i r (unsent_row_stored tb i r Hr)) as (n & a & m & b & ->).
    by rewrite Hok.
  - destruct (lookup_lt_is_Some_2 (unsent_rows tb) k Hk) as [r Hr].
    exists r. split; [exact Hr|].
    destruct (Hsend k r (unsent_row_stored tb k r Hr)) as (n & a & m & b & ->).
    by rewrite Hfail.
Qed.

Lemma publish_unsent_location_failure_updates_nothing
    (self : sds) (c : client) (new_state : string) (w : world) (tb : table)
    (k : nat) (st : status) :
  LOCATION ∈ table_list self →
  tables w !! LOCATION = Some tb →
  fault w (length (journal w)) = false →
  Forall (λ r, (9 ≤ length (cols r))%nat) (t_rows tb) →
  (k < length (unsent_rows tb))%nat →
  (∀ i lat lng hd alt spd acc fx,
     (i < k)%nat → location_publish c i lat lng hd alt spd acc fx = STATUS_SUCCESS) →
  (∀ lat lng hd alt spd acc fx, location_publish c k lat lng hd alt spd acc fx = st) →
  st ≠ STATUS_SUCCESS →
  eval_ (publish_unsent_location self c new_state) w = Ret st
  ∧ tables (exec_ (publish_unsent_location self c new_state) w) = tables w
  ∧ journal (exec_ (publish_unsent_location self c new_state) w)
    = journal w ++ [CSelectStatus LOCATION STATE_UNSENT].
Proof.
  intros Hvalid Htb Hfault Hwide Hk Hok Hfail Hne.
  assert (Hsend : ∀ i r, r ∈ t_rows tb →
            ∃ a b d e g h j,
              (λ n t, i <~ item t 0 ;; latitude <~ item t 3 ;;
                      longitude <~ item t 4 ;; heading <~ item t 5 ;;
                      altitude <~ item t 6 ;; speed <~ item t 7 ;;
                      accuracy <~ item t 8 ;; fix_type <~ item t 9 ;;
                      Ret (location_publish c n latitude longitude heading
                             altitude speed accuracy fix_type)) i r
              = Ret (location_publish c i a b d e g h j)).
  { intros i r Hr. rewrite Forall_forall in Hwide. specialize (Hwide r Hr).
    destruct (item_wide r 3) as [v3 H3]; [lia|].
    destruct (item_wide r 4) as [v4 H4]; [lia|].
    destruct (item_wide r 5) as [v5 H5]; [lia|].
    destruct (item_wide r 6) as [v6 H6]; [lia|].
    destruct (item_wide r 7) as [v7 H7]; [lia|].
    destruct (item_wide r 8) as [v8 H8]; [lia|].
    destruct (item_wide r 9) as [v9 H9]; [lia|].
    exists v3, v4, v5, v6, v7, v8, v9. cbv beta.
    rewrite H3, H4, H5, H6, H7, H8, H9. reflexivity. }
  unfold eval_, exec_, publish_unsent_location.
  rewrite (publish_unsent_breaks self tb LOCATION _ new_state w k st
             Hvalid Htb Hfault); [by repeat split| | |exact Hne].
  - intros i r Hi Hr.
    destruct (Hsend i r (unsent_row_stored tb i r Hr))
      as (a & b & d & e & g & h & j & ->).
    by rewrite Hok.
  - destruct (lookup_lt_is_Some_2 (unsent_rows tb) k Hk) as [r Hr].
    exists r. split; [exact Hr|].
    destruct (Hsend k r (unsent_row_stored tb k r Hr))
      as (a & b & d & e & g & h & j & ->).
    by rewrite Hfail.
Qed.


(** When every send succeeds the rows do move to the caller's state. *)
Example publish_all_succeed :
  let always := {| telemetry_publish := λ _ _ _ _ _, STATUS_SUCCESS;
                   location_publish := λ _ _ _ _ _ _ _ _, STATUS_SUCCESS;
                   alarm_publish := λ _ _ _ _ _, STATUS_SUCCESS |} in
  let w := samples [1; 2; 3] fresh in
  eval_ (publish_unsent_telemetry init always STATE_RETAIN) w = Ret STATUS_SUCCESS
  ∧ (state_of (exec_ (publish_unsent_telemetry init always STATE_RETAIN) w)
       TELEMETRY <$> [1; 2; 3])
    = [Some (SText STATE_RETAIN); Some (SText STATE_RETAIN); Some (SText STATE_RETAIN)].
Proof. split; vm_compute; reflexivity. Qed.

(** * Further properties of the class *)

(** ** Frame and invariants: what a method keeps *)

Lemma preserves_ret {A} (P : world → Prop) (a : A) : preserves P (ret a).
Proof. by intros w H. Qed.

Lemma preserves_raise {A} (P : world → Prop) (e : exn) : preserves P (@raise A e).
Proof. by intros w H. Qed.

Lemma preserves_lift {A} (P : world → Prop) (o : outcome A) : preserves P (lift o).
Proof. by intros w H. Qed.

Lemma preserves_bind {A B} (P : world → Prop) (m : M A) (k : A → M B) :
  preserves P m → (∀ a, preserves P (k a)) → preserves P (x <- m ;; k x).
Proof.
  intros Hm Hk w H. specialize (Hm w H). unfold exec_, bind in *.
  destruct (m w) as [[a|e] w1]; simpl in *; [by apply Hk | exact Hm].
Qed.

Lemma preserves_for_each {A} (P : world → Prop) (l : list A) (body : A → M unit) :
  (∀ x, preserves P (body x)) → preserves P (for_each l body).
Proof.
  intros Hb. induction l as [|x l IH]; [apply preserves_ret|].
  simpl. apply preserves_bind; [apply Hb | intros _; exact IH].
Qed.

Ltac one_command Hs Ht H :=
  let w := fresh "w" in
  intros w H; unfold exec_;
  match goal with
  | |- context [execute ?c w] =>
      pose proof (Hs c w Ht H) as Hc;
      destruct (execute c w) as [[[]|] ?]; simpl in *; exact Hc
  end.

Section Preservation.
Variable t : string.
Variable P : world → Prop.
Hypothesis Hs : stable_on t P.

Lemma preserves_custom_sql_command (self : sds) (sql : command) :
  target sql = t → preserves P (custom_sql_command self sql).
Proof. intros Ht. unfold custom_sql_command. one_command Hs Ht H. Qed.

Lemma preserves_update_state (self : sds) (i : sqlval) (st : string) :
  preserves P (update_state self t i st).
Proof.
  unfold update_state. assert (Ht : target (CUpdateStatus t st i) = t) by done.
  one_command Hs Ht H.
Qed.

Lemma preserves_get_row_count (self : sds) : preserves P (get_row_count self t).
Proof.
  unfold get_row_count. destruct (negb (is_type_valid self t));
    [apply preserves_raise|].
  assert (Ht : target (CCount t) = t) by done. one_command Hs Ht H.
Qed.

Lemma preserves_apply_retention_policy (self : sds) :
  preserves P (apply_retention_policy self t).
Proof.
  unfold apply_retention_policy. apply preserves_bind.
  - destruct (decide (retention_policy self = STORAGE_LIMITED));
      [|apply preserves_ret].
    apply preserves_bind; [apply preserves_get_row_count|]. intros count.
    destruct (decide (count >= retain_max_entries self)); [|apply preserves_ret].
    destruct (decide (retention_drop_mode self = STORAGE_AGE_OLDEST));
      [by apply preserves_custom_sql_command | apply preserves_ret].
  - intros ret1.
    destruct (decide (retention_policy self = STORAGE_MAX_DAYS));
      [|apply preserves_ret].
    destruct (decide (max_days_to_retain self = 0)); [apply preserves_ret|].
    by apply preserves_custom_sql_command.
Qed.

Lemma preserves_insert (self : sds) (a : kw.t) : preserves P (insert self t a).
Proof.
  intros w H. unfold exec_, insert.
  destruct (negb (is_type_valid self t)); [exact H|].
  revert w H.
  change (preserves P
    (λ w, (_ <- apply_retention_policy self t ;;
           match insert_values t a (stored_ts a w) (stored_state a) with
           | Some values =>
               λ w1, match execute (CInsert t values) w1 with
                     | (Some _, w2) => (Ret STATUS_SUCCESS, w2)
                     | (None, w2) => (Ret STATUS_FAILURE, w2)
                     end
           | None => raise UnboundLocalError
           end) w)).
  intros w H.
  apply (preserves_bind P (apply_retention_policy self t)
           (λ _, match insert_values t a (stored_ts a w) (stored_state a) with
                 | Some values =>
                     λ w1, match execute (CInsert t values) w1 with
                           | (Some _, w2) => (Ret STATUS_SUCCESS, w2)
                           | (None, w2) => (Ret STATUS_FAILURE, w2)
                           end
                 | None => raise UnboundLocalError
                 end)); [apply preserves_apply_retention_policy| |exact H].
  intros _. destruct (insert_values t a (stored_ts a w) (stored_state a))
    as [values|]; [|apply preserves_raise].
  assert (Ht : target (CInsert t values) = t) by done. one_command Hs Ht H'.
Qed.

Lemma preserves_select_all_by_state (self : sds) (st : string) :
  preserves P (select_all_by_state self t st).
Proof.
  unfold select_all_by_state. destruct (negb (is_type_valid self t));
    [apply preserves_ret|].
  assert (Ht : target (CSelectStatus t st) = t) by done. one_command Hs Ht H.
Qed.

Lemma preserves_select_table (self : sds) : preserves P (select_table self t).
Proof.
  unfold select_table. destruct (negb (is_type_valid self t));
    [apply preserves_ret|].
  assert (Ht : target (CSelect t) = t) by done. one_command Hs Ht H.
Qed.

Lemma preserves_get_table_info (self : sds) : preserves P (get_table_info self t).
Proof.
  unfold get_table_info.
  assert (Ht : target (CTableInfo t) = t) by done. one_command Hs Ht H.
Qed.

Lemma preserves_subscript (d : gmap string nat) (k : string) :
  preserves P (subscript d k).
Proof. unfold subscript. destruct (d !! k); [apply preserves_ret | apply preserves_raise]. Qed.

Lemma preserves_data_smooth_on_change (self : sds) (field_name : string)
    (plus_minus : Qc) (st : string) :
  preserves P (data_smooth_on_change self t field_name plus_minus st).
Proof.
  unfold data_smooth_on_change.
  destruct (negb (is_in field_name (field_list self))); [apply preserves_ret|].
  apply preserves_bind; [apply preserves_get_table_info|]. intros d.
  apply preserves_bind; [apply preserves_subscript|]. intros f.
  apply preserves_bind; [apply preserves_subscript|]. intros s.
  apply preserves_bind; [apply preserves_subscript|]. intros i.
  apply preserves_bind.
  { assert (Ht : target (CSelectStatus t STATE_UNSENT) = t) by done.
    one_command Hs Ht H. }
  intros rows. apply preserves_bind; [apply preserves_lift|]. intros l.
  apply preserves_bind; [|intros _; apply preserves_ret].
  apply preserves_for_each. intros x.
  apply preserves_bind; [apply preserves_update_state | intros _; apply preserves_ret].
Qed.

Lemma preserves_publish_unsent (self : sds) (send : nat → row → outcome status)
    (new_state : string) :
  preserves P (publish_unsent self t send new_state).
Proof.
  unfold publish_unsent.
  apply preserves_bind; [apply preserves_select_all_by_state|]. intros [rows|];
    [|apply preserves_raise].
  apply preserves_bind; [apply preserves_lift|]. intros res.
  apply preserves_bind; [|intros _; apply preserves_ret].
  destruct (decide (res.1 = STATUS_SUCCESS)); [|apply preserves_ret].
  apply preserves_for_each. intros x.
  apply preserves_bind; [apply preserves_update_state | intros _; apply preserves_ret].
Qed.
End Preservation.

Lemma execute_journal (c : command) (w : world) :
  journal (execute c w).2 = journal w ++ [c]
  ∧ fault (execute c w).2 = fault w
  ∧ utcnow (execute c w).2 = utcnow w
  ∧ sql_datetime (execute c w).2 = sql_datetime w.
Proof.
  unfold execute. destruct (fault w (length (journal w))); [done|].
  destruct (tables w !! target c) as [tb|]; [|by destruct c].
  by destruct (run c w tb).
Qed.

Lemma execute_failed (c : command) (w w' : world) :
  execute c w = (None, w') → tables w' = tables w.
Proof.
  unfold execute. destruct (fault w (length (journal w))); [by intros [= <-]|].
  destruct (tables w !! target c) as [tb|].
  - destruct (run c w tb). discriminate.
  - destruct c; intros [= <-]; reflexivity.
Qed.

Lemma stable_other_table (t t' : string) (v : option table) :
  t ≠ t' → stable_on t (λ w, tables w !! t' = v).
Proof.
  intros Hne c w Ht H. unfold execute.
  destruct (fault w (length (journal w))); [exact H|].
  rewrite Ht. destruct (tables w !! t) as [tb|].
  - destruct (run c w tb) as [tb' r]. simpl. by rewrite lookup_insert_ne.
  - by destruct c.
Qed.

Lemma stable_ordered (t : string) : stable_on t world_ordered.
Proof.
  intros c w Ht H. unfold execute.
  destruct (fault w (length (journal w))); [exact H|].
  destruct (tables w !! target c) as [tb|] eqn:T; [|by destruct c].
  pose proof (run_ordered c w tb (H _ _ T)) as Ho.
  destruct (run c w tb) as [tb' r]. simpl in *.
  intros t2 tb2. unfold set_tables. simpl.
  destruct (decide (target c = t2)) as [<-|Hne].
  - rewrite lookup_insert_eq. by intros [= <-].
  - rewrite lookup_insert_ne by done. apply H.
Qed.

Lemma fresh_ordered : world_ordered fresh.
Proof.
  intros t tb H. unfold fresh, fresh_tables in H. simpl in H.
  repeat (apply lookup_insert_Some in H as [[_ <-]|[_ H]];
          [apply empty_table_ordered|]).
  by rewrite lookup_empty in H.
Qed.

(** ** Insert and the retention policies *)

(** [insert] on a valid table, once the retention step has returned. *)
Lemma insert_after_retention (self : sds) (table : string) (a : kw.t)
    (w w1 : world) (r : status) (values : list sqlval) :
  table ∈ table_list self →
  apply_retention_policy self table w = (Ret r, w1) →
  insert_values table a (stored_ts a w) (stored_state a) = Some values →
  insert self table a w
  = match execute (CInsert table values) w1 with
    | (Some _, w2) => (Ret STATUS_SUCCESS, w2)
    | (None, w2) => (Ret STATUS_FAILURE, w2)
    end.
Proof.
  intros Hvalid Hret Hvalues. apply is_in_spec in Hvalid.
  unfold insert, is_type_valid. rewrite Hvalid. simpl.
  unfold bind. by rewrite Hret, Hvalues.
Qed.

(** The retention step below the maximum: one count, nothing deleted. *)
Lemma retention_below_max (self : sds) (tb : table) (table : string) (w : world) :
  retention_policy self = STORAGE_LIMITED →
  table ∈ table_list self →
  tables w !! table = Some tb →
  fault w (length (journal w)) = false →
  Z.of_nat (length (t_rows tb)) < retain_max_entries self →
  apply_retention_policy self table w
  = (Ret STATUS_SUCCESS, after w [CCount table] (tables w)).
Proof.
  intros Hpol Hvalid Htb F Hcount. apply is_in_spec in Hvalid.
  unfold apply_retention_policy, bind, get_row_count, is_type_valid.
  rewrite Hvalid, Hpol. simpl.
  rewrite (execute_after (CCount table) w w [] (tables w) tb);
    [|by rewrite after_nil|by rewrite Nat.add_0_r|exact Htb].
  simpl. rewrite insert_id by exact Htb.
  destruct (decide (Z.of_nat (length (t_rows tb)) >= retain_max_entries self));
    [lia | reflexivity].
Qed.

(** X1.  An insert below the maximum adds exactly one row at the end, with the
    next index and the values given, and deletes nothing. *)
Theorem insert_below_max (self : sds) (tb : table) (table : string) (a : kw.t)
    (w : world) :
  retention_policy self = STORAGE_LIMITED →
  table ∈ table_list self → table ∈ [TELEMETRY; LOCATION; ALARM] →
  tables w !! table = Some tb →
  Z.of_nat (length (t_rows tb)) < retain_max_entries self →
  fault w (length (journal w)) = false →
  fault w (S (length (journal w))) = false →
  ∃ values,
    insert_values table a (stored_ts a w) (stored_state a) = Some values
    ∧ last values = Some (stored_state a)
    ∧ eval_ (insert self table a) w = Ret STATUS_SUCCESS
    ∧ journal (exec_ (insert self table a) w)
      = journal w ++ [CCount table; CInsert table values]
    ∧ rows_of (exec_ (insert self table a) w) table
      = t_rows tb ++ [{| idx := t_seq tb + 1; cols := values |}]
    ∧ (ordered tb → Forall (λ r, idx r < t_seq tb + 1) (t_rows tb)).
Proof.
  intros Hpol Hvalid Hkind Htb Hcount F0 F1.
  destruct (insertable_values table a (stored_ts a w) (stored_state a) Hkind)
    as (values & Hvalues & Hlast).
  exists values. split; [exact Hvalues|]. split; [exact Hlast|].
  unfold eval_, exec_, rows_of.
  rewrite (insert_after_retention self table a w _ _ values Hvalid
             (retention_below_max self tb table w Hpol Hvalid Htb F0 Hcount) Hvalues).
  rewrite (execute_after (CInsert table values) w _ [CCount table] (tables w) tb
             eq_refl); [|by rewrite Nat.add_1_r|exact Htb].
  simpl. rewrite lookup_insert_eq. simpl.
  repeat split. intros [_ Hb]. eapply Forall_impl; [exact Hb|].
  intros r Hr. simpl in Hr. lia.
Qed.

Lemma stored_state_given (a : kw.t) (s : string) :
  kw.state a = Some s → s ≠ "" → stored_state a = SText s.
Proof.
  intros H Hs. unfold stored_state. rewrite H. simpl.
  by rewrite bool_decide_eq_false_2.
Qed.

Lemma stored_ts_given (a : kw.t) (w : world) (s : string) :
  kw.ts a = Some s → s ≠ "" → stored_ts a w = SText s.
Proof.
  intros H Hs. unfold stored_ts. rewrite H. simpl.
  by rewrite bool_decide_eq_false_2.
Qed.

(** X2.  An unknown table name is refused before anything is sent. *)
Theorem insert_unknown_table (self : sds) (table : string) (a : kw.t) (w : world) :
  table ∉ table_list self →
  insert self table a w = (Ret STATUS_FULL, w).
Proof.
  intros H. unfold insert, is_type_valid. by rewrite (is_in_false _ _ H).
Qed.



(** X5.  When the count query fails the table is taken to be empty: nothing
    is deleted even from a table that is full, and the row is stored. *)
Theorem insert_after_failed_count (self : sds) (tb : table) (table : string)
    (a : kw.t) (w : world) :
  retention_policy self = STORAGE_LIMITED →
  0 < retain_max_entries self →
  table ∈ table_list self → table ∈ [TELEMETRY; LOCATION; ALARM] →
  tables w !! table = Some tb →
  fault w (length (journal w)) = true →
  fault w (S (length (journal w))) = false →
  eval_ (insert self table a) w = Ret STATUS_SUCCESS
  ∧ ∃ values,
      insert_values table a (stored_ts a w) (stored_state a) = Some values
      ∧ journal (exec_ (insert self table a) w)
        = journal w ++ [CCount table; CInsert table values]
      ∧ rows_of (exec_ (insert self table a) w) table
        = t_rows tb ++ [{| idx := t_seq tb + 1; cols := values |}].
Proof.
  intros Hpol Hmax Hvalid Hkind Htb F0 F1.
  assert (Hret : apply_retention_policy self table w
                 = (Ret STATUS_SUCCESS, after w [CCount table] (tables w))).
  { pose proof Hvalid as Hv. apply is_in_spec in Hv.
    unfold apply_retention_policy, bind, get_row_count, is_type_valid.
    rewrite Hv, Hpol. simpl. rewrite execute_fault by exact F0.
    destruct (decide (0 >= retain_max_entries self)); [lia | reflexivity]. }
  destruct (insertable_values table a (stored_ts a w) (stored_state a) Hkind)
    as (values & Hvalues & _).
  unfold eval_, exec_.
  rewrite (insert_after_retention self table a w _ _ values Hvalid Hret Hvalues).
  rewrite (execute_after (CInsert table values) w _ _ (tables w) tb eq_refl);
    [|by rewrite Nat.add_1_r|exact Htb].
  simpl. split; [reflexivity|]. exists values. split; [exact Hvalues|].
  split; [reflexivity|]. unfold rows_of. simpl. by rewrite lookup_insert_eq.
Qed.

Lemma apply_retention_policy_returns (self : sds) (table : string) (w : world) :
  table ∈ table_list self →
  ∃ r, eval_ (apply_retention_policy self table) w = Ret r.
Proof.
  intros Hvalid. apply is_in_spec in Hvalid.
  assert (Hsql : ∀ sql w1, ∃ r w2, custom_sql_command self sql w1 = (Ret r, w2)).
  { intros sql w1. unfold custom_sql_command.
    destruct (execute sql w1) as [[r|] w2]; by do 2 eexists. }
  assert (Hfirst : ∃ r w1,
            (if decide (retention_policy self = STORAGE_LIMITED) then
               count <- get_row_count self table ;;
               if decide (count >= retain_max_entries self) then
                 if decide (retention_drop_mode self = STORAGE_AGE_OLDEST) then
                   custom_sql_command self (CDeleteOldest table (num_to_age self))
                 else ret STATUS_STATUS_FULL
               else ret STATUS_SUCCESS
             else ret STATUS_SUCCESS) w = (Ret r, w1)).
  { destruct (decide (retention_policy self = STORAGE_LIMITED)); [|by do 2 eexists].
    unfold bind, get_row_count, is_type_valid. rewrite Hvalid. simpl.
    destruct (execute (CCount table) w) as [[[]|] w1]; simpl;
      match goal with
      | |- context [decide (?n >= _)] =>
          destruct (decide (n >= retain_max_entries self)); [|by do 2 eexists];
          destruct (decide (retention_drop_mode self = STORAGE_AGE_OLDEST));
          [apply Hsql | by do 2 eexists]
      end. }
  destruct Hfirst as (r1 & w1 & Hfirst).
  unfold eval_, apply_retention_policy.
  rewrite (bind_ret _ _ w w1 r1 Hfirst).
  destruct (decide (retention_policy self = STORAGE_MAX_DAYS)); [|by eexists].
  destruct (decide (max_days_to_retain self = 0)); [by eexists|].
  destruct (Hsql (CDeleteOlder table (max_days_to_retain self)) w1) as (r & w2 & ->).
  by eexists.
Qed.



(** X8.  The age policy.  With [retention_policy = STORAGE_MAX_DAYS] and a
    positive number of days the row count is never read: the insert first
    deletes the rows whose timestamp text is below SQLite's
    [datetime('now', '-d days')] and then adds the row. *)
Theorem insert_max_days (self : sds) (tb : table) (table : string) (a : kw.t)
    (w : world) :
  retention_policy self = STORAGE_MAX_DAYS →
  0 < max_days_to_retain self →
  table ∈ table_list self → table ∈ [TELEMETRY; LOCATION; ALARM] →
  tables w !! table = Some tb →
  fault w (length (journal w)) = false →
  fault w (S (length (journal w))) = false →
  ∃ values,
    insert_values table a (stored_ts a w) (stored_state a) = Some values
    ∧ eval_ (insert self table a) w = Ret STATUS_SUCCESS
    ∧ journal (exec_ (insert self table a) w)
      = journal w ++ [CDeleteOlder table (max_days_to_retain self);
                      CInsert table values]
    ∧ rows_of (exec_ (insert self table a) w) table
      = filter (λ r, ts_before tb (sql_datetime w (max_days_to_retain self)) r = false)
          (t_rows tb)
        ++ [{| idx := t_seq tb + 1; cols := values |}].
Proof.
  intros Hpol Hdays Hvalid Hkind Htb F0 F1.
  assert (Hret : apply_retention_policy self table w
    = (Ret STATUS_SUCCESS,
       after w [CDeleteOlder table (max_days_to_retain self)]
         (<[table := set_rows tb
              (filter (λ r, ts_before tb (sql_datetime w (max_days_to_retain self)) r
                            = false) (t_rows tb))]> (tables w)))).
  { unfold apply_retention_policy. rewrite Hpol. simpl.
    rewrite (bind_ret (ret STATUS_SUCCESS) _ w w STATUS_SUCCESS eq_refl).
    destruct (decide (max_days_to_retain self = 0)); [lia|].
    unfold custom_sql_command.
    rewrite (execute_after (CDeleteOlder table (max_days_to_retain self)) w w []
               (tables w) tb);
      [reflexivity|by rewrite after_nil|by rewrite Nat.add_0_r|exact Htb]. }
  destruct (insertable_values table a (stored_ts a w) (stored_state a) Hkind)
    as (values & Hvalues & _).
  exists values. split; [exact Hvalues|].
  unfold eval_, exec_.
  rewrite (insert_after_retention self table a w _ _ values Hvalid Hret Hvalues).
  erewrite (execute_after (CInsert table values) w _ _ _ _ eq_refl);
    [|by rewrite Nat.add_1_r|apply lookup_insert_eq].
  simpl. split; [reflexivity|]. split; [reflexivity|].
  unfold rows_of. simpl. by rewrite lookup_insert_eq.
Qed.

(** X9.  With any other policy string, or with the age policy and 0 days, the
    retention step does nothing: the insert is the only command sent. *)
Theorem insert_without_retention (self : sds) (tb : table) (table : string)
    (a : kw.t) (w : world) :
  retention_policy self ≠ STORAGE_LIMITED →
  retention_policy self ≠ STORAGE_MAX_DAYS ∨ max_days_to_retain self = 0 →
  table ∈ table_list self → table ∈ [TELEMETRY; LOCATION; ALARM] →
  tables w !! table = Some tb →
  fault w (length (journal w)) = false →
  ∃ values,
    insert_values table a (stored_ts a w) (stored_state a) = Some values
    ∧ eval_ (insert self table a) w = Ret STATUS_SUCCESS
    ∧ journal (exec_ (insert self table a) w) = journal w ++ [CInsert table values]
    ∧ rows_of (exec_ (insert self table a) w) table
      = t_rows tb ++ [{| idx := t_seq tb + 1; cols := values |}].
Proof.
  intros Hpol Hdays Hvalid Hkind Htb F0.
  assert (Hret : apply_retention_policy self table w = (Ret STATUS_SUCCESS, w)).
  { unfold apply_retention_policy.
    destruct (decide (retention_policy self = STORAGE_LIMITED)); [contradiction|].
    rewrite (bind_ret (ret STATUS_SUCCESS) _ w w STATUS_SUCCESS eq_refl).
    destruct (decide (retention_policy self = STORAGE_MAX_DAYS)); [|reflexivity].
    destruct (decide (max_days_to_retain self = 0)); [reflexivity|].
    by destruct Hdays. }
  destruct (insertable_values table a (stored_ts a w) (stored_state a) Hkind)
    as (values & Hvalues & _).
  exists values. split; [exact Hvalues|].
  unfold eval_, exec_.
  rewrite (insert_after_retention self table a w _ _ values Hvalid Hret Hvalues).
  rewrite (execute_after (CInsert table values) w w [] (tables w) tb);
    [|by rewrite after_nil|by rewrite Nat.add_0_r|exact Htb].
  simpl. split; [reflexivity|]. split; [reflexivity|].
  unfold rows_of. simpl. by rewrite lookup_insert_eq.
Qed.

(** ** update_state *)

Lemma set_rows_same (tb : table) : set_rows tb (t_rows tb) = tb.
Proof. by destruct tb. Qed.

Lemma filter_fmap_idx (g : row → row) (z : Z) (rs : list row) :
  (∀ r, idx (g r) = idx r) →
  filter (λ r, idx r = z) (g <$> rs) = g <$> filter (λ r, idx r = z) rs.
Proof.
  intros Hidx. induction rs as [|r rs IH]; [reflexivity|].
  rewrite fmap_cons, !filter_cons, IH, Hidx.
  by destruct (decide (idx r = z)).
Qed.

Lemma update_row_idx (tb : table) (st : string) (i : sqlval) (r : row) :
  idx (if idx_is i r then set_status tb st r else r) = idx r.
Proof. destruct (idx_is i r); [apply set_status_idx | done]. Qed.

Lemma update_run (self : sds) (tb : table) (table st : string) (i : sqlval)
    (w : world) :
  tables w !! table = Some tb →
  fault w (length (journal w)) = false →
  update_state self table i st w
  = (Ret STATUS_SUCCESS,
     after w [CUpdateStatus table st i]
       (<[table := set_rows tb ((λ r, if idx_is i r then set_status tb st r else r)
                                 <$> t_rows tb)]> (tables w))).
Proof.
  intros Htb F. unfold update_state.
  rewrite (execute_after (CUpdateStatus table st i) w w [] (tables w) tb);
    [reflexivity|by rewrite after_nil|by rewrite Nat.add_0_r|exact Htb].
Qed.

(** The status of the row named by a successful update. *)
Lemma update_state_sets_row (self : sds) (table st old : string) (z : Z) (w : world) :
  fault w (length (journal w)) = false →
  state_of w table z = Some (SText old) →
  state_of (exec_ (update_state self table (SInt z) st) w) table z
  = Some (SText st).
Proof.
  intros F Hold.
  assert (Htb : ∃ tb, tables w !! table = Some tb).
  { unfold state_of in Hold. destruct (tables w !! table); [by eexists | discriminate]. }
  destruct Htb as [tb Htb].
  unfold exec_. rewrite (update_run self tb table st (SInt z) w Htb F).
  unfold state_of in *. cbn -[idx_is]. rewrite lookup_insert_eq. rewrite Htb in Hold.
  cbn -[idx_is].
  rewrite (filter_fmap_idx _ z (t_rows tb) (update_row_idx tb st (SInt z))).
  destruct (filter (λ r, idx r = z) (t_rows tb)) as [|r0 rest] eqn:Ef;
    [discriminate|].
  assert (Hr0 : idx r0 = z).
  { assert (Hin : r0 ∈ filter (λ r, idx r = z) (t_rows tb)) by (rewrite Ef; left).
    by apply list_elem_of_filter in Hin as [? _]. }
  simpl. unfold idx_is. rewrite bool_decide_eq_true_2 by exact Hr0.
  unfold set_status.
  destruct (col_index "status" (t_cols tb)) as [[|j]|]; [| |discriminate].
  - simpl in Hold. discriminate.
  - simpl in *. apply list_lookup_insert_eq. by eapply lookup_lt_Some.
Qed.




Lemma set_status_twice (tb : table) (st : string) (r : row) :
  set_status tb st (set_status tb st r) = set_status tb st r.
Proof.
  unfold set_status. destruct (col_index "status" (t_cols tb)) as [[|j]|]; try done.
  simpl. by rewrite list_insert_insert_eq.
Qed.

Lemma set_status_cols (tb1 tb2 : table) (st : string) (r : row) :
  t_cols tb1 = t_cols tb2 → set_status tb1 st r = set_status tb2 st r.
Proof. intros H. unfold set_status. by rewrite H. Qed.


(** ** Counting, selecting and round trips *)

(** X14.  For a table of the list, [get_row_count] never raises: it answers
    the number of rows, or 0 when the query fails, and changes no table. *)
Theorem get_row_count_counts (self : sds) (table : string) (w : world) :
  table ∈ table_list self →
  ∃ n, eval_ (get_row_count self table) w = Ret n
       ∧ tables (exec_ (get_row_count self table) w) = tables w
       ∧ (fault w (length (journal w)) = true → n = 0)
       ∧ (fault w (length (journal w)) = false →
          n = Z.of_nat (length (rows_of w table))).
Proof.
  intros H. apply is_in_spec in H.
  unfold eval_, exec_, get_row_count, is_type_valid. rewrite H. simpl.
  unfold rows_of.
  destruct (tables w !! table) as [tb|] eqn:T.
  - destruct (execute_query (CCount table) w tb eq_refl T) as [[F ->]|[F ->]]; simpl.
    + exists 0. split; [done|]. split; [done|]. split; [done | congruence].
    + exists (Z.of_nat (length (t_rows tb))).
      split; [done|]. split; [done|]. split; [congruence | done].
  - unfold execute. simpl. rewrite T.
    destruct (fault w (length (journal w))); simpl; exists 0;
      (split; [done|]); (split; [done|]); split; done.
Qed.

(** X15.  A cursor on an unknown table is None and nothing is sent; a
    selection that the backend fails is None too, with the tables as
    before. *)
Theorem select_none (self : sds) (table state : string) (w : world) :
  (table ∉ table_list self →
   select_table self table w = (Ret None, w)
   ∧ select_all_by_state self table state w = (Ret None, w))
  ∧ (table ∈ table_list self → fault w (length (journal w)) = true →
     eval_ (select_table self table) w = Ret None
     ∧ eval_ (select_all_by_state self table state) w = Ret None
     ∧ tables (exec_ (select_table self table) w) = tables w
     ∧ tables (exec_ (select_all_by_state self table state) w) = tables w).
Proof.
  split.
  - intros H. unfold select_table, select_all_by_state, is_type_valid.
    by rewrite (is_in_false _ _ H).
  - intros H F. apply is_in_spec in H.
    unfold eval_, exec_, select_table, select_all_by_state, is_type_valid.
    rewrite H. simpl. rewrite !execute_fault by exact F. by repeat split.
Qed.


Lemma stored_state_default (a : kw.t) :
  stored_state a = or_default (kw.state a) STATE_SENT.
Proof.
  unfold stored_state, or_default. destruct (kw.state a) as [s|]; [|done]. simpl.
  destruct (decide (s = "")) as [->|Hs]; [done|].
  by rewrite bool_decide_eq_false_2.
Qed.

Lemma stored_ts_default (a : kw.t) (w : world) :
  stored_ts a w = or_default (kw.ts a) (utcnow w).
Proof.
  unfold stored_ts, or_default. destruct (kw.ts a) as [s|]; [|done]. simpl.
  destruct (decide (s = "")) as [->|Hs]; [done|].
  by rewrite bool_decide_eq_false_2.
Qed.

(** Reading the table back after an insert below the maximum. *)
Lemma insert_then_select (self : sds) (tb : table) (table : string) (a : kw.t)
    (w : world) (values : list sqlval) :
  retention_policy self = STORAGE_LIMITED →
  table ∈ table_list self →
  tables w !! table = Some tb →
  Z.of_nat (length (t_rows tb)) < retain_max_entries self →
  fault w (length (journal w)) = false →
  fault w (S (length (journal w))) = false →
  fault w (S (S (length (journal w)))) = false →
  insert_values table a (stored_ts a w) (stored_state a) = Some values →
  eval_ (insert self table a) w = Ret STATUS_SUCCESS
  ∧ eval_ (select_table self table) (exec_ (insert self table a) w)
    = Ret (Some (t_rows tb ++ [{| idx := t_seq tb + 1; cols := values |}])).
Proof.
  intros Hpol Hvalid Htb Hcount F0 F1 F2 Hvalues.
  unfold eval_, exec_.
  rewrite (insert_after_retention self table a w _ _ values Hvalid
             (retention_below_max self tb table w Hpol Hvalid Htb F0 Hcount) Hvalues).
  rewrite (execute_after (CInsert table values) w _ [CCount table] (tables w) tb
             eq_refl); [|by rewrite Nat.add_1_r|exact Htb].
  simpl. split; [reflexivity|].
  apply is_in_spec in Hvalid. unfold select_table, is_type_valid. rewrite Hvalid.
  simpl.
  rewrite (execute_after (CSelect table) w _ [CCount table; CInsert table values] _
             {| t_cols := t_cols tb;
                t_rows := t_rows tb ++ [{| idx := t_seq tb + 1; cols := values |}];
                t_seq := t_seq tb + 1 |} eq_refl);
    [reflexivity|simpl; by rewrite Nat.add_comm|apply lookup_insert_eq].
Qed.



(** ** get_table_info *)

Lemma info_fold_absent (names : list string) (n : string) :
  ∀ (k : nat) (d : gmap string nat),
    n ∉ names →
    foldl (λ d '(i, m), <[m := i]> d) d (imap (λ i m, ((k + i)%nat, m)) names) !! n
    = d !! n.
Proof.
  induction names as [|m names IH]; intros k d Hn; [reflexivity|].
  apply not_elem_of_cons in Hn as [Hne Hn]. simpl.
  rewrite (imap_ext _ (λ i m', ((S k + i)%nat, m')))
    by (intros i x _; simpl; f_equal; lia).
  rewrite IH by exact Hn. by rewrite lookup_insert_ne.
Qed.

Lemma info_fold_present (names : list string) (n : string) :
  ∀ (k i : nat) (d : gmap string nat),
    NoDup names → names !! i = Some n →
    foldl (λ d '(i, m), <[m := i]> d) d (imap (λ i m, ((k + i)%nat, m)) names) !! n
    = Some (k + i)%nat.
Proof.
  induction names as [|m names IH]; intros k i d Hnd Hi; [discriminate|].
  apply NoDup_cons in Hnd as [Hm Hnd]. simpl.
  rewrite (imap_ext _ (λ i m', ((S k + i)%nat, m')))
    by (intros j x _; simpl; f_equal; lia).
  destruct i as [|i]; simpl in Hi.
  - injection Hi as ->. rewrite info_fold_absent by exact Hm.
    by rewrite lookup_insert_eq.
  - rewrite (IH (S k) i _ Hnd Hi). f_equal. lia.
Qed.

(** The dictionary built from distinct column names maps each name to its
    position and holds nothing else. *)
Lemma info_dict_lookup (names : list string) (n : string) (i : nat) :
  NoDup names → info_dict names !! n = Some i ↔ names !! i = Some n.
Proof.
  intros Hnd. unfold info_dict.
  change (imap pair names) with (imap (λ i m, ((0 + i)%nat, m)) names).
  split.
  - intros H. destruct (decide (n ∈ names)) as [Hin|Hout].
    + apply list_elem_of_lookup in Hin as [j Hj].
      rewrite (info_fold_present names n 0 j ∅ Hnd Hj) in H.
      injection H as <-. exact Hj.
    + rewrite info_fold_absent in H by exact Hout. by rewrite lookup_empty in H.
  - intros H. by rewrite (info_fold_present names n 0 i ∅ Hnd H).
Qed.

(** X18.  [get_table_info] maps every column of the table to its position in
    the rows, and nothing else; no table changes. *)
Theorem get_table_info_positions (self : sds) (tb : table) (table : string)
    (w : world) :
  tables w !! table = Some tb →
  NoDup (t_cols tb) →
  fault w (length (journal w)) = false →
  ∃ d, eval_ (get_table_info self table) w = Ret d
       ∧ (∀ n i, d !! n = Some i ↔ t_cols tb !! i = Some n)
       ∧ tables (exec_ (get_table_info self table) w) = tables w.
Proof.
  intros Htb Hnd F. unfold eval_, exec_, get_table_info.
  destruct (execute_query (CTableInfo table) w tb eq_refl Htb) as [[F' _]|[_ ->]];
    [congruence|].
  simpl. exists (info_dict (t_cols tb)). split; [done|]. split; [|done].
  intros n i. by apply info_dict_lookup.
Qed.


(** ** The smoother: failures and the marking rule *)

Lemma info_dict_absent (names : list string) (n : string) :
  n ∉ names → info_dict names !! n = None.
Proof.
  intros H. unfold info_dict.
  change (imap pair names) with (imap (λ i m, ((0 + i)%nat, m)) names).
  rewrite info_fold_absent by exact H. apply lookup_empty.
Qed.


(** The call on a table that has the field, once the two reads succeeded:
    the outcome of the scan decides. *)
Lemma data_smooth_run (self : sds) (tb : table) (table field_name : string)
    (plus_minus : Qc) (state : string) (w : world) (f s i : nat) :
  field_name ∈ field_list self →
  tables w !! table = Some tb →
  fault w (length (journal w)) = false →
  fault w (S (length (journal w))) = false →
  info_dict (t_cols tb) !! field_name = Some f →
  info_dict (t_cols tb) !! "status" = Some s →
  info_dict (t_cols tb) !! "idx" = Some i →
  data_smooth_on_change self table field_name plus_minus state w
  = match smooth_scan f s i plus_minus (unsent_rows tb) SNull with
    | Ret l =>
        (Ret (Some l),
         exec_ (for_each l (λ i, _ <- update_state self table i STATE_IGNORE ;; ret tt))
           (after w [CTableInfo table; CSelectStatus table STATE_UNSENT] (tables w)))
    | Raise e =>
        (Raise e,
         after w [CTableInfo table; CSelectStatus table STATE_UNSENT] (tables w))
    end.
Proof.
  intros Hfield Htb F0 F1 Hf Hs Hi.
  apply is_in_spec in Hfield.
  unfold data_smooth_on_change. rewrite Hfield. simpl.
  set (w1 := log_command (CTableInfo table) w).
  set (w2 := log_command (CSelectStatus table STATE_UNSENT) w1).
  assert (Hw2 : w2 = after w [CTableInfo table; CSelectStatus table STATE_UNSENT]
                       (tables w)).
  { unfold w2, w1, log_command, after. simpl. by rewrite <- app_assoc. }
  assert (E : get_table_info self table w = (Ret (info_dict (t_cols tb)), w1)).
  { unfold get_table_info.
    destruct (execute_query (CTableInfo table) w tb eq_refl Htb) as [[F _]|[_ ->]];
      [congruence | reflexivity]. }
  rewrite (bind_ret _ _ _ _ _ E).
  rewrite (bind_ret _ _ _ _ _ (subscript_found _ _ _ _ Hf)).
  rewrite (bind_ret _ _ _ _ _ (subscript_found _ _ _ _ Hs)).
  rewrite (bind_ret _ _ _ _ _ (subscript_found _ _ _ _ Hi)).
  assert (Hsel : (λ w, match execute (CSelectStatus table STATE_UNSENT) w with
                       | (Some (RRows rs), w') => (Ret rs, w')
                       | (_, w') => (Ret [], w')
                       end) w1 = (Ret (unsent_rows tb), w2)).
  { destruct (execute_query (CSelectStatus table STATE_UNSENT) w1 tb eq_refl Htb)
      as [[F _]|[_ ->]]; [|reflexivity].
    unfold w1 in F. simpl in F. rewrite length_app in F. simpl in F.
    rewrite Nat.add_1_r in F. congruence. }
  rewrite (bind_ret _ _ _ _ _ Hsel). rewrite <- Hw2.
  destruct (smooth_scan f s i plus_minus (unsent_rows tb) SNull) as [l|e].
  - rewrite (bind_ret (lift (Ret l)) _ w2 w2 l eq_refl).
    pose proof (mark_all_returns self table STATE_IGNORE l w2) as He.
    unfold eval_, exec_ in *.
    destruct (for_each l (λ i, _ <- update_state self table i STATE_IGNORE ;; ret tt) w2)
      as [o w3] eqn:Hloop.
    simpl in He. subst o.
    by rewrite (bind_ret _ _ w2 w3 tt Hloop).
  - by rewrite (bind_raise (lift (Raise e)) _ w2 w2 e eq_refl).
Qed.

(** The list built by the scan names scanned rows, each at most once and in
    the order of the scan. *)
Lemma smooth_scan_sublist (f s : nat) (plus_minus : Qc) (rows : list row) :
  ∀ (last : sqlval) (l : list sqlval),
    smooth_scan f s 0 plus_minus rows last = Ret l →
    l `sublist_of` ((λ r, SInt (idx r)) <$> rows).
Proof.
  induction rows as [|r rest IH]; intros last l H.
  - simpl in H. by injection H as <-.
  - apply smooth_scan_cons in H
      as (curr & ix & marked & more & _ & Hi & _ & Hmore & ->).
    unfold item in Hi. simpl in Hi. injection Hi as <-.
    rewrite fmap_cons. specialize (IH curr more Hmore).
    destruct marked; [by apply sublist_skip | by apply sublist_cons].
Qed.

(** The first scanned row has no previous value: it is never in the list. *)
Lemma smooth_scan_first (f s : nat) (plus_minus : Qc) (r : row) (rest : list row)
    (l : list sqlval) :
  smooth_scan f s 0 plus_minus (r :: rest) SNull = Ret l →
  l `sublist_of` ((λ r, SInt (idx r)) <$> rest).
Proof.
  intros H. apply smooth_scan_cons in H
    as (curr & ix & marked & more & _ & _ & Hm & Hmore & ->).
  simpl in Hm. injection Hm as <-. by eapply smooth_scan_sublist.
Qed.

(** Whether the row after [r0] is in the list is decided by the test on the
    two values alone. *)
Lemma smooth_scan_mark_iff (f s : nat) (plus_minus : Qc) (pre post : list row)
    (r0 r1 : row) (v0 v1 : sqlval) :
  item r0 f = Ret v0 → item r1 f = Ret v1 →
  NoDup (idx <$> pre ++ r0 :: r1 :: post) →
  ∀ (last : sqlval) (l : list sqlval),
    smooth_scan f s 0 plus_minus (pre ++ r0 :: r1 :: post) last = Ret l →
    ∃ m, (if truthy v0 then insignificant v1 v0 plus_minus else Ret false) = Ret m
         ∧ (SInt (idx r1) ∈ l ↔ m = true).
Proof.
  intros H0 H1 Hnd.
  destruct (distinct_middle pre post r0 r1 Hnd) as (Hpre & Hne & Hpost).
  clear Hnd. induction pre as [|p pre IH]; intros last l H.
  - rewrite app_nil_l in H. apply smooth_scan_cons in H
      as (curr & ix & marked & more & Hc & Hi & _ & Hmore & ->).
    rewrite H0 in Hc. injection Hc as <-.
    unfold item in Hi. simpl in Hi. injection Hi as <-.
    apply smooth_scan_cons in Hmore
      as (curr1 & ix1 & m1 & more1 & Hc1 & Hi1 & Hm1 & Hmore1 & ->).
    rewrite H1 in Hc1. injection Hc1 as <-.
    unfold item in Hi1. simpl in Hi1. injection Hi1 as <-.
    exists m1. split; [exact Hm1|].
    assert (Hnot : SInt (idx r1) ∉ more1).
    { intros Hin.
      destruct (smooth_scan_marks_scanned f s plus_minus post v1 more1 _ Hmore1 Hin)
        as (r & Hr & E). injection E as E. exact (Hpost r Hr (eq_sym E)). }
    split.
    + intros Hin.
      assert (Hin' : SInt (idx r1) ∈ (if m1 then SInt (idx r1) :: more1 else more1)).
      { destruct marked; [|exact Hin].
        apply elem_of_cons in Hin as [E|Hin]; [|exact Hin].
        injection E as E. by destruct Hne. }
      destruct m1; [reflexivity | contradiction].
    + intros ->. destruct marked; [right|]; left.
  - rewrite <- app_comm_cons in H.
    apply smooth_scan_cons in H
      as (curr & ix & marked & more & _ & Hi & _ & Hmore & ->).
    unfold item in Hi. simpl in Hi. injection Hi as <-.
    destruct (IH (λ r Hr, Hpre r (list_elem_of_further _ _ _ Hr)) curr more Hmore)
      as (m & Hm & Hiff).
    exists m. split; [exact Hm|]. rewrite <- Hiff.
    destruct marked; [|reflexivity].
    split; [|by right].
    intros Hin. apply elem_of_cons in Hin as [E|Hin]; [|exact Hin].
    injection E as E. destruct (Hpre p (list_elem_of_here _ _)). by rewrite E.
Qed.


Lemma insignificant_raises (curr last : sqlval) (plus_minus : Qc) (e : exn) :
  insignificant curr last plus_minus = Raise e → e = TypeError.
Proof.
  unfold insignificant, py_gt, py_ge, py_lt, py_le, py_sub, py_add.
  destruct (py_eq curr last); [discriminate|].
  destruct curr, last; simpl; try (by intros [= <-]);
    repeat match goal with
           | |- context [bool_decide ?P] => destruct (bool_decide P); simpl
           | |- context [String.ltb ?a ?b] => destruct (String.ltb a b); simpl
           end; try discriminate; by intros [= <-].
Qed.

(** A NULL value right after a value that is true as a Python object stops
    the scan with a TypeError, when the rows up to there have the columns
    read. *)
Lemma smooth_scan_null (f s : nat) (plus_minus p : Qc) (pre post : list row)
    (r0 r1 : row) :
  item r0 f = Ret (SReal p) → p ≠ Q2Qc 0 → item r1 f = Ret SNull →
  (∀ r, r ∈ pre ++ [r0; r1] → is_Some (row_get r f) ∧ is_Some (row_get r s)) →
  ∀ last, smooth_scan f s 0 plus_minus (pre ++ r0 :: r1 :: post) last
          = Raise TypeError.
Proof.
  intros H0 Hp H1 Hwide.
  assert (Hstep : ∀ r rest last,
            is_Some (row_get r f) → is_Some (row_get r s) →
            smooth_scan f s 0 plus_minus rest
              (default SNull (row_get r f)) = Raise TypeError →
            smooth_scan f s 0 plus_minus (r :: rest) last = Raise TypeError).
  { intros r rest last [v Hv] [x Hx] Hrest. simpl. unfold item.
    rewrite Hv, Hx. simpl. rewrite Hv in Hrest. simpl in Hrest.
    destruct (truthy last).
    - destruct (insignificant v last plus_minus) as [m|e] eqn:E; simpl.
      + by rewrite Hrest.
      + by rewrite (insignificant_raises _ _ _ _ E).
    - simpl. by rewrite Hrest. }
  induction pre as [|q pre IH]; intros last.
  - rewrite app_nil_l.
    destruct (Hwide r0) as [Hf0 Hs0]; [left|].
    destruct (Hwide r1) as [Hf1 Hs1]; [right; left|].
    apply Hstep; [exact Hf0 | exact Hs0|].
    unfold item in H0. destruct (row_get r0 f) as [v0|]; [|discriminate].
    injection H0 as ->. simpl.
    destruct Hs1 as [x1 Hx1]. unfold item in *.
    destruct (row_get r1 f) as [v1|]; [|discriminate]. injection H1 as ->.
    rewrite Hx1. simpl. by rewrite bool_decide_eq_false_2.
  - rewrite <- app_comm_cons.
    destruct (Hwide q) as [Hfq Hsq]; [left|].
    apply Hstep; [exact Hfq | exact Hsq|].
    apply IH. intros r Hr. apply Hwide. by right.
Qed.

(** X22.  A telemetry sample stored without a value (NULL) right after a
    sample whose value is not 0 makes the smoother raise TypeError; no row
    is marked. *)
Theorem smooth_null_sample (self : sds) (tb : table) (table field_name : string)
    (plus_minus p : Qc) (state : string) (w : world) (f s : nat)
    (pre post : list row) (r0 r1 : row) :
  field_name ∈ field_list self →
  tables w !! table = Some tb →
  fault w (length (journal w)) = false →
  fault w (S (length (journal w))) = false →
  info_dict (t_cols tb) !! field_name = Some f →
  info_dict (t_cols tb) !! "status" = Some s →
  info_dict (t_cols tb) !! "idx" = Some 0%nat →
  unsent_rows tb = pre ++ r0 :: r1 :: post →
  (∀ r, r ∈ pre ++ [r0; r1] → is_Some (row_get r f) ∧ is_Some (row_get r s)) →
  item r0 f = Ret (SReal p) → p ≠ Q2Qc 0 → item r1 f = Ret SNull →
  eval_ (data_smooth_on_change self table field_name plus_minus state) w
  = Raise TypeError
  ∧ tables (exec_ (data_smooth_on_change self table field_name plus_minus state) w)
    = tables w.
Proof.
  intros Hfield Htb F0 F1 Hf Hs Hi Hrows Hwide H0 Hp H1.
  unfold eval_, exec_.
  rewrite (data_smooth_run self tb table field_name plus_minus state w f s 0
             Hfield Htb F0 F1 Hf Hs Hi).
  rewrite Hrows.
  rewrite (smooth_scan_null f s plus_minus p pre post r0 r1 H0 Hp H1 Hwide).
  by split.
Qed.

(** ** The smoother: effect on the store *)

Lemma mark_all_cons (self : sds) (table st : string) (x : sqlval)
    (l : list sqlval) (w : world) :
  for_each (x :: l) (λ i, _ <- update_state self table i st ;; ret tt) w
  = for_each l (λ i, _ <- update_state self table i st ;; ret tt)
      (exec_ (update_state self table x st) w).
Proof.
  set (body := λ i, _ <- update_state self table i st ;; ret tt).
  change (for_each (x :: l) body) with (_ <- body x ;; for_each l body).
  apply (bind_ret (body x) (λ _, for_each l body) w _ tt).
  unfold body, bind, exec_, update_state.
  by destruct (execute (CUpdateStatus table st x) w) as [[r|] w1].
Qed.

Lemma update_state_fault (self : sds) (table st : string) (x : sqlval) (w : world) :
  fault (exec_ (update_state self table x st) w) = fault w
  ∧ length (journal (exec_ (update_state self table x st) w))
    = S (length (journal w)).
Proof.
  unfold exec_, update_state.
  destruct (execute_journal (CUpdateStatus table st x) w) as (Hj & Hf & _).
  destruct (execute (CUpdateStatus table st x) w) as [[r|] w1]; simpl in *;
    rewrite Hj, length_app, Nat.add_1_r; by split.
Qed.

(** The update loop on a backend without faults: the rows named in the list
    end in the new state, the others keep theirs. *)
Lemma mark_all_sets (self : sds) (table st : string) (z : Z) (zs : list Z) :
  ∀ (w : world) (old : string),
    (∀ n, fault w n = false) →
    state_of w table z = Some (SText old) →
    state_of (exec_ (for_each (SInt <$> zs)
                       (λ i, _ <- update_state self table i st ;; ret tt)) w) table z
    = Some (SText (if bool_decide (z ∈ zs) then st else old)).
Proof.
  induction zs as [|y zs IH]; intros w old F Hold; [exact Hold|].
  rewrite fmap_cons. unfold exec_ at 1. rewrite mark_all_cons.
  fold (exec_ (for_each (SInt <$> zs)
                 (λ i, _ <- update_state self table i st ;; ret tt))
          (exec_ (update_state self table (SInt y) st) w)).
  assert (F' : ∀ n, fault (exec_ (update_state self table (SInt y) st) w) n = false).
  { intros n. destruct (update_state_fault self table st (SInt y) w) as [-> _].
    apply F. }
  destruct (decide (y = z)) as [->|Hne].
  - pose proof (update_state_sets_row self table st old z w (F _) Hold) as Hset.
    rewrite (IH _ st F' Hset).
    rewrite (bool_decide_eq_true_2 (z ∈ z :: zs)) by left.
    by destruct (bool_decide (z ∈ zs)).
  - assert (Hsame : state_of (exec_ (update_state self table (SInt y) st) w) table z
                    = Some (SText old)).
    { rewrite <- Hold.
      apply (update_state_other self table table st (SInt y) z w).
      intros r Hr. simpl. apply bool_decide_eq_false_2. congruence. }
    rewrite (IH _ old F' Hsame).
    destruct (decide (z ∈ zs)) as [Hin|Hout].
    + rewrite !bool_decide_eq_true_2; [done | by right | done].
    + rewrite !bool_decide_eq_false_2; [done | | done].
      intros Hin. apply elem_of_cons in Hin as [E|Hin]; [congruence | contradiction].
Qed.

Lemma filter_idx_NoDup (rs : list row) (r : row) :
  NoDup (idx <$> rs) → r ∈ rs → filter (λ x, idx x = idx r) rs = [r].
Proof.
  induction rs as [|q rs IH]; intros Hnd Hr; [inversion Hr|].
  rewrite fmap_cons in Hnd. apply NoDup_cons in Hnd as [Hq Hnd].
  rewrite filter_cons. apply elem_of_cons in Hr as [->|Hr].
  - rewrite decide_True by done. f_equal. apply filter_none.
    intros x Hx E. apply Hq. rewrite <- E. apply list_elem_of_fmap. by exists x.
  - rewrite decide_False; [by apply IH|].
    intros E. apply Hq. rewrite E. apply list_elem_of_fmap. by exists r.
Qed.

Lemma state_of_unsent (w : world) (tb : table) (table : string) (r : row) :
  tables w !! table = Some tb → NoDup (idx <$> t_rows tb) →
  r ∈ unsent_rows tb →
  state_of w table (idx r) = Some (SText STATE_UNSENT).
Proof.
  intros Htb Hnd Hr. apply list_elem_of_filter in Hr as [Hst Hr].
  unfold state_of. rewrite Htb, (filter_idx_NoDup _ _ Hnd Hr).
  unfold has_status in Hst.
  destruct (col_index "status" (t_cols tb)) as [c|]; [|discriminate].
  by apply bool_decide_eq_true in Hst.
Qed.

Lemma sublist_ints (l : list sqlval) (rows : list row) :
  l `sublist_of` ((λ r, SInt (idx r)) <$> rows) →
  ∃ rs, rs `sublist_of` rows ∧ l = (λ r, SInt (idx r)) <$> rs.
Proof.
  revert l. induction rows as [|r rows IH]; intros l H.
  - apply sublist_nil_r in H as ->. by exists [].
  - rewrite fmap_cons in H. apply sublist_cons_r in H as [H|(l' & -> & H)].
    + destruct (IH l H) as (rs & Hrs & ->). exists rs. split; [by apply sublist_cons|done].
    + destruct (IH l' H) as (rs & Hrs & ->). exists (r :: rs).
      split; [by apply sublist_skip | done].
Qed.

(** X23.  What the smoother does to the store when the backend does not fail.
    The list returned names unsent rows other than the first, in ascending
    order; exactly these rows end as 'ignore', every other row keeps its
    status. *)
Theorem smooth_sets_ignore (self : sds) (tb : table) (table field_name : string)
    (plus_minus : Qc) (state : string) (w : world) (f s : nat) (l : list sqlval) :
  field_name ∈ field_list self →
  tables w !! table = Some tb →
  (∀ n, fault w n = false) →
  NoDup (idx <$> t_rows tb) →
  info_dict (t_cols tb) !! field_name = Some f →
  info_dict (t_cols tb) !! "status" = Some s →
  info_dict (t_cols tb) !! "idx" = Some 0%nat →
  eval_ (data_smooth_on_change self table field_name plus_minus state) w
  = Ret (Some l) →
  l `sublist_of` ((λ r, SInt (idx r)) <$> tail (unsent_rows tb))
  ∧ ∀ z, state_of (exec_ (data_smooth_on_change self table field_name plus_minus
                            state) w) table z
         = if bool_decide (SInt z ∈ l) then Some (SText STATE_IGNORE)
           else state_of w table z.
Proof.
  intros Hfield Htb F Hnd Hf Hs Hi Heval.
  unfold eval_, exec_ in *.
  rewrite (data_smooth_run self tb table field_name plus_minus state w f s 0
             Hfield Htb (F _) (F _) Hf Hs Hi) in Heval |- *.
  destruct (smooth_scan f s 0 plus_minus (unsent_rows tb) SNull) as [l'|e] eqn:Hscan;
    [|discriminate].
  simpl in Heval. injection Heval as ->. simpl.
  assert (Hsub : l `sublist_of` ((λ r, SInt (idx r)) <$> tail (unsent_rows tb))).
  { destruct (unsent_rows tb) as [|r rest].
    - simpl in Hscan. by injection Hscan as <-.
    - by apply (smooth_scan_first f s plus_minus r rest). }
  split; [exact Hsub|].
  set (w2 := after w [CTableInfo table; CSelectStatus table STATE_UNSENT] (tables w)).
  assert (F2 : ∀ n, fault w2 n = false) by (intros n; apply F).
  assert (Hst2 : ∀ z, state_of w2 table z = state_of w table z).
  { intros z. by apply state_of_tables. }
  destruct (sublist_ints l _ Hsub) as (rs & Hrs & ->).
  intros z. destruct (decide (SInt z ∈ (λ r, SInt (idx r)) <$> rs)) as [Hin|Hout].
  - rewrite bool_decide_eq_true_2 by exact Hin.
    apply list_elem_of_fmap in Hin as (r & E & Hr). injection E as ->.
    assert (Hun : r ∈ unsent_rows tb).
    { assert (Hr' : r ∈ tail (unsent_rows tb)) by (by eapply elem_of_sublist).
      destruct (unsent_rows tb); [inversion Hr' | by right]. }
    pose proof (state_of_unsent w tb table r Htb Hnd Hun) as Hold.
    rewrite <- Hst2 in Hold.
    assert (Hc : (λ r, SInt (idx r)) <$> rs = SInt <$> (idx <$> rs))
      by (by rewrite <- list_fmap_compose).
    rewrite Hc.
    rewrite (mark_all_sets self table STATE_IGNORE (idx r) (idx <$> rs) w2 _ F2 Hold).
    rewrite bool_decide_eq_true_2; [done|].
    apply list_elem_of_fmap. by exists r.
  - rewrite bool_decide_eq_false_2 by exact Hout. rewrite <- Hst2.
    apply (mark_all_other self table table STATE_IGNORE z).
    intros x Hx r Hr. apply list_elem_of_fmap in Hx as (r' & -> & Hr').
    simpl. apply bool_decide_eq_false_2. intros E. apply Hout.
    apply list_elem_of_fmap. exists r'. split; [congruence | done].
Qed.

(** ** The publishers *)

Lemma select_unsent_run (self : sds) (tb : table) (table : string) (w : world) :
  table ∈ table_list self →
  tables w !! table = Some tb →
  fault w (length (journal w)) = false →
  select_all_by_state self table STATE_UNSENT w
  = (Ret (Some (unsent_rows tb)),
     after w [CSelectStatus table STATE_UNSENT] (tables w)).
Proof.
  intros Hvalid Htb F. apply is_in_spec in Hvalid.
  unfold select_all_by_state, is_type_valid. rewrite Hvalid. simpl.
  rewrite (execute_after (CSelectStatus table STATE_UNSENT) w w [] (tables w) tb);
    [|by rewrite after_nil|by rewrite Nat.add_0_r|exact Htb].
  simpl. by rewrite insert_id.
Qed.

(** With nothing to publish the answer is the initial [status], which is
    STATUS_FAILURE. *)
Lemma publish_unsent_nothing (self : sds) (tb : table) (table : string)
    (send : nat → row → outcome status) (new_state : string) (w : world) :
  table ∈ table_list self →
  tables w !! table = Some tb →
  fault w (length (journal w)) = false →
  unsent_rows tb = [] →
  publish_unsent self table send new_state w
  = (Ret STATUS_FAILURE, after w [CSelectStatus table STATE_UNSENT] (tables w)).
Proof.
  intros Hvalid Htb F Hnone. unfold publish_unsent.
  rewrite (bind_ret _ _ _ _ _ (select_unsent_run self tb table w Hvalid Htb F)).
  by rewrite Hnone.
Qed.

(** X24.  With no unsent row, each publisher answers STATUS_FAILURE, although
    nothing failed; it only reads. *)
Theorem publish_nothing_reports_failure (self : sds) (c : client)
    (new_state : string) (w : world) :
  fault w (length (journal w)) = false →
  (∀ tb, TELEMETRY ∈ table_list self → tables w !! TELEMETRY = Some tb →
         unsent_rows tb = [] →
         eval_ (publish_unsent_telemetry self c new_state) w = Ret STATUS_FAILURE
         ∧ tables (exec_ (publish_unsent_telemetry self c new_state) w) = tables w)
  ∧ (∀ tb, ALARM ∈ table_list self → tables w !! ALARM = Some tb →
           unsent_rows tb = [] →
           eval_ (publish_unsent_alarms self c new_state) w = Ret STATUS_FAILURE
           ∧ tables (exec_ (publish_unsent_alarms self c new_state) w) = tables w)
  ∧ (∀ tb, LOCATION ∈ table_list self → tables w !! LOCATION = Some tb →
           unsent_rows tb = [] →
           eval_ (publish_unsent_location self c new_state) w = Ret STATUS_FAILURE
           ∧ tables (exec_ (publish_unsent_location self c new_state) w) = tables w).
Proof.
  intros F. repeat split; intros;
    unfold eval_, exec_, publish_unsent_telemetry, publish_unsent_alarms,
      publish_unsent_location;
    by erewrite publish_unsent_nothing.
Qed.

(** X25.  When the selection of the unsent rows fails, the publishers iterate
    over None: they raise TypeError instead of answering a status. *)
Theorem publish_select_failure_raises (self : sds) (c : client)
    (new_state : string) (w : world) :
  fault w (length (journal w)) = true →
  eval_ (publish_unsent_telemetry self c new_state) w = Raise TypeError
  ∧ eval_ (publish_unsent_alarms self c new_state) w = Raise TypeError
  ∧ eval_ (publish_unsent_location self c new_state) w = Raise TypeError
  ∧ tables (exec_ (publish_unsent_telemetry self c new_state) w) = tables w
  ∧ tables (exec_ (publish_unsent_alarms self c new_state) w) = tables w
  ∧ tables (exec_ (publish_unsent_location self c new_state) w) = tables w.
Proof.
  intros F.
  assert (H : ∀ table send,
            eval_ (publish_unsent self table send new_state) w = Raise TypeError
            ∧ tables (exec_ (publish_unsent self table send new_state) w) = tables w).
  { intros table send. unfold eval_, exec_, publish_unsent, bind, select_all_by_state.
    destruct (negb (is_type_valid self table)); [by split|].
    rewrite execute_fault by exact F. by split. }
  unfold publish_unsent_telemetry, publish_unsent_alarms, publish_unsent_location.
  repeat split; apply H.
Qed.

Lemma dict_set_keys (k : sqlval) (v : string) (d : list (sqlval * string)) :
  (dict_set k v d).*1 = if decide (k ∈ d.*1) then d.*1 else d.*1 ++ [k].
Proof.
  induction d as [|[k' v'] d IH]; [reflexivity|]. cbn [dict_set].
  destruct (decide (k' = k)) as [->|Hne]; rewrite !fmap_cons; cbn [fst].
  - by rewrite decide_True by left.
  - rewrite IH. destruct (decide (k ∈ d.*1)) as [Hin|Hout].
    + by rewrite decide_True by (by right).
    + rewrite decide_False; [done|].
      intros H. apply elem_of_cons in H as [E|H]; [congruence | contradiction].
Qed.

(** The send loop when every send succeeds: the answer is STATUS_SUCCESS as
    soon as there is a row, and the keys of [update_db] are the indices of
    the rows. *)
Lemma publish_loop_all (send : nat → row → outcome status) (rows : list row) :
  ∀ (n : nat) (st : status) (zs0 : list Z) (update_db : list (sqlval * string)),
    update_db.*1 = SInt <$> zs0 →
    (∀ i r, r ∈ rows → send i r = Ret STATUS_SUCCESS) →
    ∃ zs update_db',
      publish_loop send rows n st update_db
      = Ret (match rows with [] => st | _ => STATUS_SUCCESS end, update_db')
      ∧ update_db'.*1 = SInt <$> zs
      ∧ ∀ z, z ∈ zs ↔ z ∈ zs0 ∨ z ∈ idx <$> rows.
Proof.
  induction rows as [|t rest IH]; intros n st zs0 update_db Hk Hsend.
  - exists zs0, update_db. split; [done|]. split; [done|].
    intros z. split; [by left | intros [H|H]; [done | inversion H]].
  - cbn [publish_loop]. rewrite (Hsend n t) by left. cbn [obind].
    destruct (decide (STATUS_SUCCESS ≠ STATUS_SUCCESS)) as [Hc|_]; [done|].
    change (item t 0) with (Ret (SInt (idx t))). cbn [obind].
    set (zs1 := if decide (idx t ∈ zs0) then zs0 else zs0 ++ [idx t]).
    assert (Hk1 : (dict_set (SInt (idx t)) STATE_SENT update_db).*1 = SInt <$> zs1).
    { rewrite dict_set_keys, Hk. unfold zs1.
      destruct (decide (idx t ∈ zs0)) as [Hin|Hout].
      - rewrite decide_True; [done|]. apply list_elem_of_fmap. by exists (idx t).
      - rewrite decide_False; [by rewrite fmap_app|].
        intros H. apply list_elem_of_fmap in H as (y & E & Hy).
        injection E as E. apply Hout. by rewrite E. }
    destruct (IH (S n) STATUS_SUCCESS zs1 _ Hk1
                (λ i r Hr, Hsend i r (list_elem_of_further _ _ _ Hr)))
      as (zs & upd' & Hloop & Hkeys & Hzs).
    exists zs, upd'. split; [|split; [exact Hkeys|]].
    + rewrite Hloop. by destruct rest.
    + intros z. rewrite Hzs, fmap_cons, elem_of_cons. unfold zs1.
      destruct (decide (idx t ∈ zs0)) as [Hin|Hout].
      * split; [intros [H|H]; [by left | by right; right]|].
        intros [H|[->|H]]; [by left | by left | by right].
      * rewrite elem_of_app, list_elem_of_singleton.
        split; [intros [[H|H]|H]; [by left | by right; left | by right; right]|].
        intros [H|[H|H]]; [by left; left | by left; right | by right].
Qed.


(** ** Tables kept apart, rows kept in order *)


(** X28.  The publishers only touch their own table. *)
Theorem publishers_touch_own_table (self : sds) (c : client) (new_state other : string)
    (w : world) :
  (other ≠ TELEMETRY →
   tables (exec_ (publish_unsent_telemetry self c new_state) w) !! other
   = tables w !! other)
  ∧ (other ≠ ALARM →
     tables (exec_ (publish_unsent_alarms self c new_state) w) !! other
     = tables w !! other)
  ∧ (other ≠ LOCATION →
     tables (exec_ (publish_unsent_location self c new_state) w) !! other
     = tables w !! other).
Proof.
  repeat split; intros Hne;
    (eapply (preserves_publish_unsent _ (λ w', tables w' !! other = tables w !! other));
     [apply stable_other_table; congruence | reflexivity]).
Qed.

(** X29.  The order of the rows is an invariant of the store: it holds when
    the store is opened and every method keeps it, so that in every table the
    indices are strictly ascending (each once) and none exceeds the
    autoincrement mark, from which the next index is taken. *)
Theorem store_stays_ordered (self : sds) (table : string) (w : world)
    (a : kw.t) (i : sqlval) (st field_name : string) (plus_minus : Qc)
    (c : client) :
  world_ordered w →
  world_ordered (exec_ (insert self table a) w)
  ∧ world_ordered (exec_ (apply_retention_policy self table) w)
  ∧ world_ordered (exec_ (update_state self table i st) w)
  ∧ world_ordered (exec_ (data_smooth_on_change self table field_name plus_minus st) w)
  ∧ world_ordered (exec_ (publish_unsent_telemetry self c st) w)
  ∧ world_ordered (exec_ (publish_unsent_alarms self c st) w)
  ∧ world_ordered (exec_ (publish_unsent_location self c st) w).
Proof.
  intros H.
  split; [exact (preserves_insert table _ (stable_ordered table) self a w H)|].
  split; [exact (preserves_apply_retention_policy table _ (stable_ordered table)
                   self w H)|].
  split; [exact (preserves_update_state table _ (stable_ordered table) self i st w H)|].
  split; [exact (preserves_data_smooth_on_change table _ (stable_ordered table)
                   self field_name plus_minus st w H)|].
  split; [exact (preserves_publish_unsent TELEMETRY _ (stable_ordered _)
                   self _ st w H)|].
  split; [exact (preserves_publish_unsent ALARM _ (stable_ordered _) self _ st w H)|].
  exact (preserves_publish_unsent LOCATION _ (stable_ordered _) self _ st w H).
Qed.

(** ** From insert to the sender *)

(** With one unsent row the answer of the publisher is the answer of the
    sender for that row. *)
Lemma publish_unsent_single (self : sds) (tb : table) (table : string)
    (send : nat → row → outcome status) (new_state : string) (w : world)
    (r : row) (st : status) :
  table ∈ table_list self →
  tables w !! table = Some tb →
  fault w (length (journal w)) = false →
  unsent_rows tb = [r] →
  send 0%nat r = Ret st →
  eval_ (publish_unsent self table send new_state) w = Ret st.
Proof.
  intros Hvalid Htb F Hone Hsend. unfold eval_, publish_unsent.
  rewrite (bind_ret _ _ _ _ _ (select_unsent_run self tb table w Hvalid Htb F)).
  rewrite Hone.
  set (w1 := after w [CSelectStatus table STATE_UNSENT] (tables w)).
  assert (Hloop : ∃ upd, publish_loop send [r] 0 STATUS_FAILURE [] = Ret (st, upd)).
  { simpl. rewrite Hsend. simpl.
    destruct (decide (st ≠ STATUS_SUCCESS)); by eexists. }
  destruct Hloop as [upd Hloop].
  rewrite (bind_ret (lift (publish_loop send [r] 0 STATUS_FAILURE [])) _ w1 w1 (st, upd))
    by (unfold lift; by rewrite Hloop).
  simpl. destruct (decide (st = STATUS_SUCCESS)); [|reflexivity].
  pose proof (mark_all_returns self table new_state upd.*1 w1) as He.
  unfold eval_ in He.
  destruct (for_each upd.*1 (λ k, _ <- update_state self table k new_state ;; ret tt) w1)
    as [o w2] eqn:Hfe.
  simpl in He. subst o. by rewrite (bind_ret _ _ w1 w2 tt Hfe).
Qed.

Lemma unsent_rows_snoc (tb : table) (values : list sqlval) (c : nat) :
  col_index "status" (t_cols tb) = Some (S c) →
  values !! c = Some (SText STATE_UNSENT) →
  unsent_rows tb = [] →
  unsent_rows {| t_cols := t_cols tb;
                 t_rows := t_rows tb ++ [{| idx := t_seq tb + 1; cols := values |}];
                 t_seq := t_seq tb + 1 |}
  = [{| idx := t_seq tb + 1; cols := values |}].
Proof.
  intros Hc Hv Hnone. unfold unsent_rows in *. cbn [t_rows].
  rewrite filter_app.
  assert (E : filter (λ r, has_status {| t_cols := t_cols tb;
                 t_rows := t_rows tb ++ [{| idx := t_seq tb + 1; cols := values |}];
                 t_seq := t_seq tb + 1 |} STATE_UNSENT r = true) (t_rows tb)
              = filter (λ r, has_status tb STATE_UNSENT r = true) (t_rows tb)).
  { apply list_filter_iff. intros r. by unfold has_status. }
  rewrite E, Hnone, app_nil_l, filter_cons, decide_True; [done|].
  unfold has_status. cbn [t_cols]. rewrite Hc. cbn [row_get cols].
  by rewrite Hv, bool_decide_eq_true_2.
Qed.


(** ** Scenarios *)

Lemma three_samples_table : ∃ tb, tables three_samples !! TELEMETRY = Some tb.
Proof. vm_compute. by eexists. Defined.

Ltac valid := apply (proj1 (is_in_spec _ _)); reflexivity.

Lemma insert_unknown_table_witness :
  insert init "events" kw.defaults three_samples = (Ret STATUS_FULL, three_samples).
Proof.
  apply insert_unknown_table.
  intros H. apply is_in_spec in H. vm_compute in H. discriminate.
Defined.

Lemma insert_below_max_witness :
  ∃ tb values,
    tables three_samples !! TELEMETRY = Some tb
    ∧ insert_values TELEMETRY kw.defaults (stored_ts kw.defaults three_samples)
        (stored_state kw.defaults) = Some values
    ∧ last values = Some (stored_state kw.defaults)
    ∧ eval_ (insert init TELEMETRY kw.defaults) three_samples = Ret STATUS_SUCCESS
    ∧ journal (exec_ (insert init TELEMETRY kw.defaults) three_samples)
      = journal three_samples ++ [CCount TELEMETRY; CInsert TELEMETRY values]
    ∧ rows_of (exec_ (insert init TELEMETRY kw.defaults) three_samples) TELEMETRY
      = t_rows tb ++ [{| idx := t_seq tb + 1; cols := values |}]
    ∧ (ordered tb → Forall (λ r, idx r < t_seq tb + 1) (t_rows tb)).
Proof.
  destruct three_samples_table as [tb Htb]. exists tb.
  assert (Hcount : Z.of_nat (length (t_rows tb)) < retain_max_entries init).
  { vm_compute in Htb. injection Htb as <-. reflexivity. }
  destruct (insert_below_max init tb TELEMETRY kw.defaults three_samples eq_refl
              ltac:(valid) ltac:(valid) Htb Hcount eq_refl eq_refl) as (values & H).
  exists values. split; [exact Htb | exact H].
Defined.

Lemma three_samples_count (tb : table) :
  tables three_samples !! TELEMETRY = Some tb → length (t_rows tb) = 3%nat.
Proof. intros H. vm_compute in H. by injection H as <-. Defined.



Lemma insert_after_failed_count_witness :
  let w := with_fault three_samples (λ n, bool_decide (n = 6%nat)) in
  ∃ tb, tables w !! TELEMETRY = Some tb
  ∧ eval_ (insert (age_oldest 3 2) TELEMETRY kw.defaults) w = Ret STATUS_SUCCESS
  ∧ ∃ values,
      insert_values TELEMETRY kw.defaults (stored_ts kw.defaults w)
        (stored_state kw.defaults) = Some values
      ∧ journal (exec_ (insert (age_oldest 3 2) TELEMETRY kw.defaults) w)
        = journal w ++ [CCount TELEMETRY; CInsert TELEMETRY values]
      ∧ rows_of (exec_ (insert (age_oldest 3 2) TELEMETRY kw.defaults) w) TELEMETRY
        = t_rows tb ++ [{| idx := t_seq tb + 1; cols := values |}].
Proof.
  intros w. destruct three_samples_table as [tb Htb]. exists tb.
  split; [exact Htb|].
  exact (insert_after_failed_count (age_oldest 3 2) tb TELEMETRY kw.defaults w
           eq_refl eq_refl ltac:(valid) ltac:(valid) Htb eq_refl eq_refl).
Defined.



Lemma insert_max_days_witness :
  ∃ tb values,
    tables three_samples !! TELEMETRY = Some tb
    ∧ insert_values TELEMETRY kw.defaults (stored_ts kw.defaults three_samples)
        (stored_state kw.defaults) = Some values
    ∧ eval_ (insert (max_days 1) TELEMETRY kw.defaults) three_samples
      = Ret STATUS_SUCCESS
    ∧ journal (exec_ (insert (max_days 1) TELEMETRY kw.defaults) three_samples)
      = journal three_samples ++ [CDeleteOlder TELEMETRY 1; CInsert TELEMETRY values]
    ∧ rows_of (exec_ (insert (max_days 1) TELEMETRY kw.defaults) three_samples)
        TELEMETRY
      = filter (λ r, ts_before tb (sql_datetime three_samples 1) r = false) (t_rows tb)
        ++ [{| idx := t_seq tb + 1; cols := values |}].
Proof.
  destruct three_samples_table as [tb Htb]. exists tb.
  destruct (insert_max_days (max_days 1) tb TELEMETRY kw.defaults three_samples
              eq_refl eq_refl ltac:(valid) ltac:(valid) Htb
              eq_refl eq_refl) as (values & H).
  exists values. split; [exact Htb | exact H].
Defined.

Lemma insert_without_retention_witness :
  ∃ tb values,
    tables three_samples !! TELEMETRY = Some tb
    ∧ insert_values TELEMETRY kw.defaults (stored_ts kw.defaults three_samples)
        (stored_state kw.defaults) = Some values
    ∧ eval_ (insert (max_days 0) TELEMETRY kw.defaults) three_samples
      = Ret STATUS_SUCCESS
    ∧ journal (exec_ (insert (max_days 0) TELEMETRY kw.defaults) three_samples)
      = journal three_samples ++ [CInsert TELEMETRY values]
    ∧ rows_of (exec_ (insert (max_days 0) TELEMETRY kw.defaults) three_samples)
        TELEMETRY
      = t_rows tb ++ [{| idx := t_seq tb + 1; cols := values |}].
Proof.
  destruct three_samples_table as [tb Htb]. exists tb.
  destruct (insert_without_retention (max_days 0) tb TELEMETRY kw.defaults
              three_samples ltac:(discriminate) (or_intror eq_refl)
              ltac:(valid) ltac:(valid) Htb eq_refl) as (values & H).
  exists values. split; [exact Htb | exact H].
Defined.


Lemma publishers_touch_own_table_witness :
  tables (exec_ (publish_unsent_telemetry init always_succeeds STATE_SENT)
            three_samples) !! ALARM
  = tables three_samples !! ALARM.
Proof.
  exact (proj1 (publishers_touch_own_table init always_succeeds STATE_SENT ALARM
                  three_samples) ltac:(discriminate)).
Defined.

Lemma store_stays_ordered_witness :
  world_ordered (exec_ (insert init TELEMETRY kw.defaults) fresh).
Proof.
  exact (proj1 (store_stays_ordered init TELEMETRY fresh kw.defaults (SInt 1)
                  STATE_SENT TELEMETRY_VALUE (Qc_of_Z 1) always_succeeds
                  fresh_ordered)).
Defined.

Lemma get_row_count_counts_witness :
  ∃ n, eval_ (get_row_count init TELEMETRY) three_samples = Ret n
       ∧ tables (exec_ (get_row_count init TELEMETRY) three_samples)
         = tables three_samples
       ∧ (fault three_samples (length (journal three_samples)) = true → n = 0)
       ∧ (fault three_samples (length (journal three_samples)) = false →
          n = Z.of_nat (length (rows_of three_samples TELEMETRY))).
Proof.
  exact (get_row_count_counts init TELEMETRY three_samples ltac:(valid)).
Defined.





Lemma select_none_witness :
  (select_table init "events" three_samples = (Ret None, three_samples)
   ∧ select_all_by_state init "events" STATE_UNSENT three_samples
     = (Ret None, three_samples))
  ∧ eval_ (select_table init TELEMETRY) (with_fault three_samples (λ _, true))
    = Ret None.
Proof.
  destruct (select_none init "events" STATE_UNSENT three_samples) as [H1 _].
  destruct (select_none init TELEMETRY STATE_UNSENT
              (with_fault three_samples (λ _, true))) as [_ H2].
  split.
  - apply H1. intros H. apply is_in_spec in H. vm_compute in H. discriminate.
  - exact (proj1 (H2 ltac:(valid) eq_refl)).
Defined.



Lemma get_table_info_positions_witness :
  ∃ tb d,
    tables three_samples !! TELEMETRY = Some tb
    ∧ eval_ (get_table_info init TELEMETRY) three_samples = Ret d
    ∧ (∀ n i, d !! n = Some i ↔ t_cols tb !! i = Some n)
    ∧ tables (exec_ (get_table_info init TELEMETRY) three_samples)
      = tables three_samples.
Proof.
  destruct three_samples_table as [tb Htb]. exists tb.
  assert (Hnd : NoDup (t_cols tb)).
  { vm_compute in Htb. injection Htb as <-.
    apply (bool_decide_unpack _). vm_compute. exact I. }
  destruct (get_table_info_positions init tb TELEMETRY three_samples Htb Hnd eq_refl)
    as (d & H).
  exists d. split; [exact Htb | exact H].
Defined.



Lemma null_after_five_table :
  ∃ tb r0 r1,
    tables null_after_five !! TELEMETRY = Some tb
    ∧ unsent_rows tb = [] ++ r0 :: r1 :: []
    ∧ info_dict (t_cols tb) !! TELEMETRY_VALUE = Some 3%nat
    ∧ info_dict (t_cols tb) !! "status" = Some 7%nat
    ∧ info_dict (t_cols tb) !! "idx" = Some 0%nat
    ∧ item r0 3 = Ret (SReal (Qc_of_Z 5))
    ∧ item r1 3 = Ret SNull
    ∧ ∀ r, r ∈ [] ++ [r0; r1] → is_Some (row_get r 3) ∧ is_Some (row_get r 7).
Proof.
  eexists _, _, _.
  split; [vm_compute; reflexivity|].
  split; [vm_compute; reflexivity|].
  do 5 (split; [vm_compute; reflexivity|]).
  intros r Hr. rewrite app_nil_l in Hr.
  apply elem_of_cons in Hr as [->|Hr]; [by split; eexists|].
  apply list_elem_of_singleton in Hr as ->. by split; eexists.
Defined.

Lemma smooth_null_sample_witness :
  eval_ (data_smooth_on_change init TELEMETRY TELEMETRY_VALUE (Qc_of_Z 1) STATE_IGNORE)
    null_after_five = Raise TypeError
  ∧ tables (exec_ (data_smooth_on_change init TELEMETRY TELEMETRY_VALUE (Qc_of_Z 1)
                     STATE_IGNORE) null_after_five) = tables null_after_five.
Proof.
  destruct null_after_five_table
    as (tb & r0 & r1 & Htb & Hrows & Hf & Hs & Hi & H0 & H1 & Hwide).
  apply (smooth_null_sample init tb TELEMETRY TELEMETRY_VALUE (Qc_of_Z 1) (Qc_of_Z 5)
           STATE_IGNORE null_after_five 3 7 [] [] r0 r1
           ltac:(valid) Htb eq_refl eq_refl Hf Hs Hi Hrows Hwide H0 ltac:(discriminate) H1).
Defined.

Lemma three_samples_facts :
  ∃ tb,
    tables three_samples !! TELEMETRY = Some tb
    ∧ NoDup (idx <$> t_rows tb)
    ∧ Forall (λ r, (5 ≤ length (cols r))%nat) (t_rows tb)
    ∧ unsent_rows tb ≠ []
    ∧ info_dict (t_cols tb) !! TELEMETRY_VALUE = Some 3%nat
    ∧ info_dict (t_cols tb) !! "status" = Some 7%nat
    ∧ info_dict (t_cols tb) !! "idx" = Some 0%nat.
Proof.
  eexists. split; [vm_compute; reflexivity|].
  split; [apply (bool_decide_unpack _); vm_compute; exact I|].
  split; [apply (bool_decide_unpack _); vm_compute; exact I|].
  split; [vm_compute; discriminate|].
  repeat split; vm_compute; reflexivity.
Defined.

Lemma smooth_sets_ignore_witness :
  ∃ tb,
    tables three_samples !! TELEMETRY = Some tb
    ∧ [SInt 2; SInt 3] `sublist_of` ((λ r, SInt (idx r)) <$> tail (unsent_rows tb))
    ∧ ∀ z, state_of (exec_ (data_smooth_on_change init TELEMETRY TELEMETRY_VALUE
                              (Qc_of_Z 15) STATE_RETAIN) three_samples) TELEMETRY z
           = if bool_decide (SInt z ∈ [SInt 2; SInt 3]) then Some (SText STATE_IGNORE)
             else state_of three_samples TELEMETRY z.
Proof.
  destruct three_samples_facts as (tb & Htb & Hnd & _ & _ & Hf & Hs & Hi).
  exists tb. split; [exact Htb|].
  apply (smooth_sets_ignore init tb TELEMETRY TELEMETRY_VALUE (Qc_of_Z 15) STATE_RETAIN
           three_samples 3 7 [SInt 2; SInt 3] ltac:(valid) Htb (λ _, eq_refl) Hnd
           Hf Hs Hi).
  vm_compute. reflexivity.
Defined.

Lemma publish_nothing_reports_failure_witness :
  eval_ (publish_unsent_telemetry init always_succeeds STATE_SENT) fresh
  = Ret STATUS_FAILURE
  ∧ eval_ (publish_unsent_alarms init always_succeeds STATE_SENT) three_samples
    = Ret STATUS_FAILURE
  ∧ eval_ (publish_unsent_location init always_succeeds STATE_SENT) three_samples
    = Ret STATUS_FAILURE.
Proof.
  destruct (publish_nothing_reports_failure init always_succeeds STATE_SENT fresh
              eq_refl) as (Ht & _ & _).
  destruct (publish_nothing_reports_failure init always_succeeds STATE_SENT
              three_samples eq_refl) as (_ & Ha & Hl).
  split; [|split].
  - eapply Ht; [valid | vm_compute; reflexivity | reflexivity].
  - eapply Ha; [valid | vm_compute; reflexivity | reflexivity].
  - eapply Hl; [valid | vm_compute; reflexivity | reflexivity].
Defined.

Lemma publish_select_failure_raises_witness :
  eval_ (publish_unsent_telemetry init always_succeeds STATE_SENT)
    (with_fault three_samples (λ _, true)) = Raise TypeError.
Proof.
  exact (proj1 (publish_select_failure_raises init always_succeeds STATE_SENT
                  (with_fault three_samples (λ _, true)) eq_refl)).
Defined.



